(** * Loan prepayment calculator: the amortization engine of [server.js]

    A shallow embedding of the numeric helpers ([round], [amortizeUntilPaid],
    [computeEMI]) and of the [/api/reschedule] handler of the persistent
    server (the first listing of [server.js]), followed by the properties of
    the engine stated in the specification.

    Conventions of the embedding.
    - A JavaScript number is a [num]: [NaN], the two infinities, or a finite
      value held as an exact rational.  Arithmetic on finite values is exact
      (the 53-bit rounding of binary64 and the sign of zero are not modelled);
      the special values follow IEEE 754 as JavaScript exposes them, so that
      [0/0], comparisons with [NaN] and the [Infinity] results of the handler
      behave as in the code.
    - Month numbers and counters ([paidEmis], [totalTenure], a prepayment
      month, the loop counters) are integers, as in the data model; so the
      exponent of [Math.pow] is an integer.
    - Reads and writes of the stored loan record are left out.
    - [throw] is an explicit [Throw] outcome; the unbounded [while] loop of
      [amortizeUntilPaid] takes fuel, and running out of it is [None].
    - [Math.log] is left to the implementation by ECMAScript: the handler is
      stated over an arbitrary [Math_log], and run on sample requests with
      a series for the logarithm. *)

From stdpp Require Import gmap list strings.
From Stdlib Require Import ZArith QArith Qround Qreduction Qcanon Qpower Lia Lqa.

Local Open Scope Z_scope.

(** ** JavaScript numbers *)

Module JS.

Inductive num : Type :=
  | NaN
  | PosInf
  | NegInf
  | Fin (q : Q).

Definition of_Z (z : Z) : num := Fin (inject_Z z).
Definition zero : num := of_Z 0.
Definition one : num := of_Z 1.

(** Three-way comparison; [None] when an operand is [NaN]. *)
Definition cmp (a b : num) : option comparison :=
  match a, b with
  | NaN, _ | _, NaN => None
  | Fin x, Fin y => Some (Qcompare x y)
  | PosInf, PosInf | NegInf, NegInf => Some Eq
  | NegInf, _ | _, PosInf => Some Lt
  | PosInf, _ | _, NegInf => Some Gt
  end.

Definition ltb (a b : num) : bool :=
  match cmp a b with Some Lt => true | _ => false end.
Definition leb (a b : num) : bool :=
  match cmp a b with Some Lt | Some Eq => true | _ => false end.
Definition gtb (a b : num) : bool := ltb b a.
Definition geb (a b : num) : bool := leb b a.

(** Sign of a number as a comparison with zero. *)
Definition sgn (a : num) : option comparison := cmp a zero.

Definition opp (a : num) : num :=
  match a with
  | NaN => NaN
  | PosInf => NegInf
  | NegInf => PosInf
  | Fin x => Fin (Qred (- x))
  end.

Definition add (a b : num) : num :=
  match a, b with
  | NaN, _ | _, NaN => NaN
  | Fin x, Fin y => Fin (Qred (x + y))
  | PosInf, NegInf | NegInf, PosInf => NaN
  | PosInf, _ | _, PosInf => PosInf
  | NegInf, _ | _, NegInf => NegInf
  end.

Definition sub (a b : num) : num := add a (opp b).

(** An infinity of the sign given by a comparison with zero. *)
Definition signed_inf (s : comparison) : num :=
  match s with Gt => PosInf | Lt => NegInf | Eq => NaN end.

Definition flip (s : comparison) (a : num) : num :=
  match s with Gt => a | Lt => opp a | Eq => NaN end.

Definition mul (a b : num) : num :=
  match a, b with
  | NaN, _ | _, NaN => NaN
  | Fin x, Fin y => Fin (Qred (x * y))
  | Fin x, i => flip (Qcompare x 0) i
  | i, Fin y => flip (Qcompare y 0) i
  | PosInf, PosInf | NegInf, NegInf => PosInf
  | PosInf, NegInf | NegInf, PosInf => NegInf
  end.

Definition div (a b : num) : num :=
  match a, b with
  | NaN, _ | _, NaN => NaN
  | Fin x, Fin y =>
      if Qeq_bool y 0 then signed_inf (Qcompare x 0)
      else Fin (Qred (x / y))
  | Fin _, _ => zero
  | i, Fin y => if Qeq_bool y 0 then i else flip (Qcompare y 0) i
  | _, _ => NaN
  end.

(** [Math.round]: the nearest integer, halves going up. *)
Definition round (a : num) : num :=
  match a with
  | Fin x => of_Z (Qfloor (x + (1 # 2)))
  | _ => a
  end.

(** [Math.ceil]. *)
Definition ceil (a : num) : num :=
  match a with
  | Fin x => of_Z (Qceiling x)
  | _ => a
  end.

(** [Math.max] of two arguments. *)
Definition max (a b : num) : num :=
  match cmp a b with
  | None => NaN
  | Some Lt => b
  | Some _ => a
  end.

(** [Math.pow] at an integer exponent. *)
Definition pow (a : num) (n : Z) : num :=
  if Z.eqb n 0 then one
  else
    match a with
    | NaN => NaN
    | Fin x =>
        if Qeq_bool x 0 && Z.ltb n 0 then PosInf
        else Fin (Qred (Qpower x n))
    | PosInf => if Z.ltb n 0 then zero else PosInf
    | NegInf =>
        if Z.ltb n 0 then zero
        else if Z.odd n then NegInf else PosInf
    end.

(** Truthiness of a number: [0] and [NaN] are falsy. *)
Definition truthy (a : num) : bool :=
  match a with
  | NaN => false
  | Fin x => negb (Qeq_bool x 0)
  | _ => true
  end.

(** A finite number with an integer value. *)
Definition is_integer (a : num) : Prop := exists z : Z, a = of_Z z.

Definition is_integerb (a : num) : bool :=
  match a with
  | Fin x => Qeq_bool x (inject_Z (Qfloor x))
  | _ => false
  end.

End JS.

Import JS.

Declare Scope num_scope.
Delimit Scope num_scope with num.
Bind Scope num_scope with num.
Infix "+" := add : num_scope.
Infix "-" := sub : num_scope.
Infix "*" := mul : num_scope.
Infix "/" := div : num_scope.
Infix "<?" := ltb : num_scope.
Infix "<=?" := leb : num_scope.
Infix ">?" := gtb : num_scope.
Infix ">=?" := geb : num_scope.

(** ** Outcome of a computation that may [throw] *)

Inductive completion (A : Type) : Type :=
  | Normal (a : A)
  | Throw (message : string).
Arguments Normal {A} a.
Arguments Throw {A} message.

(** ** [amortizeUntilPaid] *)

Record ScheduleRow : Type := mkRow {
  month : Z;
  emi_paid : num;
  principal : num;
  interest : num;
  remaining : num;
}.

Definition EMI_TOO_SMALL : string := "EMI too small to cover interest.".

Section Amortize.

Variables (monthlyRate emi maxMonths : num).

(**
<<
  while (balance > 0 && month < maxMonths) {
    month++;
    const interest = round(balance * monthlyRate);
    let principal = emi - interest;
    if (principal <= 0) throw new Error("EMI too small to cover interest.");
    if (principal > balance) principal = balance;
    const emiPaid = interest + principal;
    balance = round(balance - principal);
    out.push({ month, emi_paid: emiPaid, principal, interest,
               remaining: Math.max(balance, 0) });
  }
  return out;
>> *)
Fixpoint amortize_loop (fuel : nat) (balance : num) (month : Z)
    (out : list ScheduleRow) : option (completion (list ScheduleRow)) :=
  if (balance >? zero)%num && (of_Z month <? maxMonths)%num then
    match fuel with
    | O => None
    | S fuel' =>
        let month := month + 1 in
        let interest := round (balance * monthlyRate) in
        let principal := (emi - interest)%num in
        if (principal <=? zero)%num then Some (Throw EMI_TOO_SMALL)
        else
          let principal :=
            if (principal >? balance)%num then balance else principal in
          let emiPaid := (interest + principal)%num in
          let balance := round (balance - principal) in
          amortize_loop fuel' balance month
            (out ++ [mkRow month emiPaid principal interest (max balance zero)])
    end
  else Some (Normal out).

End Amortize.

(** Iterations granted to a run: [month < maxMonths] fails from the ceiling of
    a finite cap on, and at once for [NaN] and [-Infinity]; only a run capped
    by [Infinity] is bounded by the caller's [fuel]. *)
Definition loop_fuel (fuel : nat) (maxMonths : num) : nat :=
  match maxMonths with
  | Fin q => Z.to_nat (Qceiling q)
  | PosInf => fuel
  | _ => O
  end.

Definition amortizeUntilPaid (fuel : nat) (balance monthlyRate emi maxMonths : num)
  : option (completion (list ScheduleRow)) :=
  amortize_loop monthlyRate emi maxMonths (loop_fuel fuel maxMonths) balance 0 [].

(** ** [computeEMI] *)

(**
<<
  if (months <= 0) return 0;
  const factor = Math.pow(1 + monthlyRate, months);
  return Math.round((balance * monthlyRate * factor) / (factor - 1));
>> *)
Definition computeEMI (balance monthlyRate : num) (months : Z) : num :=
  if months <=? 0 then zero
  else
    let factor := pow (one + monthlyRate) months in
    round ((balance * monthlyRate * factor) / (factor - one)).

(** ** The [/api/reschedule] handler *)

(** One entry of [prepayments], after the handler's [Number(...)] coercions:
    [pp_month] is [None] when [Number(p.month)] is [NaN]. *)
Record Prepayment : Type := mkPrepay {
  pp_month : option Z;
  pp_amount : num;
}.

Inductive SimEvent : Type :=
  | EMI (ev_month : Z) (ev_emi_paid ev_interest ev_principal
         remaining_after_emi : num)
  | PREPAY (ev_month : Z) (prepay_amount before remaining_after_prepay : num)
  | PREPAY_AFTER_ALREADY_PAID_EMI (ev_month : Z)
      (prepay_amount before remaining_after_prepay : num).

Record KeepEMI : Type := mkKeep {
  monthsToFinish : num;
  schedule : list ScheduleRow;
  keep_totalInterest : num;
  keep_error : option string;
}.

Record ReduceEMI : Type := mkReduce {
  newEmi : num;
  remainingSchedule : list ScheduleRow;
  reduce_totalInterest : num;
}.

Record Body : Type := mkBody {
  simLog : list SimEvent;
  outstandingAfterPrepayments : num;
  keepEMI : KeepEMI;
  reduceEMI : ReduceEMI;
}.

Inductive Response : Type :=
  | Status400 (error : string)
  | Status500 (error : string)
  | Ok (body : Body).

(** The request body after destructuring and defaulting.  [officialSchedule]
    holds [Number(row.Outstanding)] of each row; an absent [principal] is
    [None]. *)
Record Request : Type := mkRequest {
  officialSchedule : option (list num);
  req_principal : option num;
  annualRate : num;
  req_emi : num;
  totalTenure : Z;
  paidEmis : Z;
  prepayments : list Prepayment;
}.

Definition NO_OUTSTANDING : string :=
  "Provide either officialSchedule or principal + paidEmis to derive outstanding.".
Definition UNDEFINED_ROW : string :=
  "Cannot read properties of undefined (reading 'Outstanding')".

(** [schedule.reduce((s, r) => s + r.interest, 0)] *)
Definition sum_interest (rows : list ScheduleRow) : num :=
  foldl (fun s r => (s + interest r)%num) zero rows.

(** The body of both month-by-month loops of the handler:
<<
  const interest = round(outstanding * monthlyRate);
  let principalPart = emi - interest;
  if (principalPart > outstanding) principalPart = outstanding;
  const emiPaid = interest + principalPart;
  outstanding = round(outstanding - principalPart);
>>
    Returns [(emiPaid, interest, principalPart, outstanding)]. *)
Definition emi_step (monthlyRate emi outstanding : num)
  : num * num * num * num :=
  let interest := round (outstanding * monthlyRate) in
  let principalPart := (emi - interest)%num in
  let principalPart :=
    if (principalPart >? outstanding)%num then outstanding else principalPart in
  let emiPaid := (interest + principalPart)%num in
  let outstanding := round (outstanding - principalPart) in
  (emiPaid, interest, principalPart, outstanding).

(** [for (let m = 1; m <= paidEmis; m++) { ... }], [n] iterations. *)
Fixpoint pay_emis (monthlyRate emi : num) (n : nat) (outstanding : num) : num :=
  match n with
  | O => outstanding
  | S n' => pay_emis monthlyRate emi n' (emi_step monthlyRate emi outstanding).2
  end.

(** [officialSchedule[i].Outstanding]: reading a row that is not there throws
    a [TypeError], which the handler's outer [catch] turns into a 500. *)
Definition row_outstanding (sched : list num) (i : Z) : Response + num :=
  if i <? 0 then inl (Status500 UNDEFINED_ROW)
  else
    match sched !! Z.to_nat i with
    | Some o => inr o
    | None => inl (Status500 UNDEFINED_ROW)
    end.

(** The starting outstanding balance, or the response that ends the request.
<<
  if (officialSchedule && Array.isArray(officialSchedule)
      && officialSchedule.length >= Math.max(0, paidEmis)) {
    outstanding = paidEmis === 0
      ? (principal ? Number(principal) : Number(officialSchedule[0].Outstanding))
      : Number(officialSchedule[paidEmis - 1].Outstanding);
  } else if (typeof principal !== "undefined") {
    outstanding = Number(principal);
    for (let m = 1; m <= paidEmis; m++) { ... }
  } else { return res.status(400).json({ error: ... }); }
>> *)
Definition starting_outstanding (req : Request) (monthlyRate : num)
  : Response + num :=
  let from_principal :=
    match req_principal req with
    | Some p =>
        inr (pay_emis monthlyRate (req_emi req) (Z.to_nat (paidEmis req)) p)
    | None => inl (Status400 NO_OUTSTANDING)
    end in
  match officialSchedule req with
  | Some sched =>
      if Z.of_nat (length sched) >=? Z.max 0 (paidEmis req) then
        if paidEmis req =? 0 then
          match req_principal req with
          | Some p => if truthy p then inr p else row_outstanding sched 0
          | None => row_outstanding sched 0
          end
        else row_outstanding sched (paidEmis req - 1)
      else from_principal
  | None => from_principal
  end.

(** [prepayMap[mm] || 0] *)
Definition or_zero (v : option num) : num :=
  match v with
  | Some a => if truthy a then a else zero
  | None => zero
  end.

(**
<<
  const mm = Number(p.month);
  const aa = Number(p.amount);
  if (!mm || aa <= 0) return;
  prepayMap[mm] = (prepayMap[mm] || 0) + aa;
>> *)
Definition merge_prepayment (prepayMap : gmap Z num) (p : Prepayment)
  : gmap Z num :=
  match pp_month p with
  | None => prepayMap
  | Some mm =>
      if (mm =? 0) || (pp_amount p <=? zero)%num then prepayMap
      else <[mm := (or_zero (prepayMap !! mm) + pp_amount p)%num]> prepayMap
  end.

Definition build_prepayMap (ps : list Prepayment) : gmap Z num :=
  foldl merge_prepayment ∅ ps.

(** [Object.keys(prepayMap).length ? Math.max(...keys.map(Number)) : paidEmis] *)
Definition lastPrepayMonth (prepayMap : gmap Z num) (paidEmis : Z) : Z :=
  match (map_to_list prepayMap).*1 with
  | [] => paidEmis
  | k :: ks => foldr Z.max k ks
  end.

(** [if (prepayMap[m])]: the amount, when the entry exists and is truthy. *)
Definition scheduled (prepayMap : gmap Z num) (m : Z) : option num :=
  match prepayMap !! m with
  | Some a => if truthy a then Some a else None
  | None => None
  end.

(** [while (currentMonth < simulateTargetMonth) { ... }], [n] iterations left. *)
Fixpoint simulate (monthlyRate emi : num) (prepayMap : gmap Z num) (n : nat)
    (currentMonth : Z) (outstanding : num) (simLog : list SimEvent)
  : num * list SimEvent :=
  match n with
  | O => (outstanding, simLog)
  | S n' =>
      let currentMonth := currentMonth + 1 in
      let '(emiPaid, interest, principalPart, outstanding) :=
        emi_step monthlyRate emi outstanding in
      let simLog :=
        simLog ++ [EMI currentMonth emiPaid interest principalPart outstanding] in
      match scheduled prepayMap currentMonth with
      | Some amount =>
          let before := outstanding in
          let outstanding := max zero (round (outstanding - amount)) in
          simulate monthlyRate emi prepayMap n' currentMonth outstanding
            (simLog ++ [PREPAY currentMonth amount before outstanding])
      | None =>
          simulate monthlyRate emi prepayMap n' currentMonth outstanding simLog
      end
  end.

(** The block after the loop:
<<
  if (prepayMap[paidEmis]) {
    const before = outstanding;
    outstanding = Math.max(0, round(outstanding - prepayMap[paidEmis]));
    simLog.unshift({ month: paidEmis, action: "PREPAY_AFTER_ALREADY_PAID_EMI", ... });
  }
>> *)
Definition retroactive_prepay (prepayMap : gmap Z num) (paidEmis : Z)
    (st : num * list SimEvent) : num * list SimEvent :=
  let '(outstanding, simLog) := st in
  match scheduled prepayMap paidEmis with
  | Some amount =>
      let before := outstanding in
      let outstanding := max zero (round (outstanding - amount)) in
      (outstanding,
       PREPAY_AFTER_ALREADY_PAID_EMI paidEmis amount before outstanding :: simLog)
  | None => (outstanding, simLog)
  end.

(** Sections 4.4 of the handler: merge, forward simulation, retroactive
    prepayment.  Returns the balance, the log and [simulateTargetMonth]. *)
Definition apply_prepayments (monthlyRate emi : num) (paidEmis : Z)
    (ps : list Prepayment) (outstanding : num) : num * list SimEvent * Z :=
  let prepayMap := build_prepayMap ps in
  let simulateTargetMonth := Z.max (lastPrepayMonth prepayMap paidEmis) paidEmis in
  let st :=
    simulate monthlyRate emi prepayMap
      (Z.to_nat (simulateTargetMonth - paidEmis)) paidEmis outstanding [] in
  (retroactive_prepay prepayMap paidEmis st, simulateTargetMonth).

Section Handler.

(** [Math.log], an implementation-approximated function of the runtime. *)
Variable Math_log : num -> num.

(** Scenario A.
<<
  let keepEMI = { monthsToFinish: 0, schedule: [], totalInterest: 0 };
  try {
    const denom = emi - outstandingAfterPrepayments * monthlyRate;
    if (denom <= 0) {
      keepEMI.monthsToFinish = Infinity;
      keepEMI.totalInterest = Infinity;
    } else {
      const n = Math.log(emi / denom) / Math.log(1 + monthlyRate);
      const monthsToFinish = Math.ceil(n);
      keepEMI.monthsToFinish = monthsToFinish;
      keepEMI.schedule = amortizeUntilPaid(outstandingAfterPrepayments,
                           monthlyRate, emi, monthsToFinish + 5);
      keepEMI.totalInterest = keepEMI.schedule.reduce((s, r) => s + r.interest, 0);
    }
  } catch (err) { keepEMI.error = err.message; }
>> *)
Definition keepEMI_scenario (fuel : nat)
    (outstandingAfterPrepayments monthlyRate emi : num) : option KeepEMI :=
  let denom := (emi - outstandingAfterPrepayments * monthlyRate)%num in
  if (denom <=? zero)%num then Some (mkKeep PosInf [] PosInf None)
  else
    let n := (Math_log (emi / denom) / Math_log (one + monthlyRate))%num in
    let monthsToFinish := ceil n in
    match amortizeUntilPaid fuel outstandingAfterPrepayments monthlyRate emi
            (monthsToFinish + of_Z 5) with
    | None => None
    | Some (Normal sched) =>
        Some (mkKeep monthsToFinish sched (sum_interest sched) None)
    | Some (Throw message) =>
        Some (mkKeep monthsToFinish [] zero (Some message))
    end.

(** Scenario B; a [throw] of [amortizeUntilPaid] is not caught here.
<<
  const remainingOfficial = totalTenure - monthsDone;
  let reduceEMI = { newEmi: 0, remainingSchedule: [], totalInterest: 0 };
  if (remainingOfficial > 0) {
    const newEmi = computeEMI(outstandingAfterPrepayments, monthlyRate, remainingOfficial);
    reduceEMI.newEmi = newEmi;
    reduceEMI.remainingSchedule = amortizeUntilPaid(outstandingAfterPrepayments,
                                    monthlyRate, newEmi, remainingOfficial + 5);
    if (reduceEMI.remainingSchedule.length > remainingOfficial)
      reduceEMI.remainingSchedule = reduceEMI.remainingSchedule.slice(0, remainingOfficial);
    reduceEMI.totalInterest = reduceEMI.remainingSchedule.reduce((s, r) => s + r.interest, 0);
  }
>> *)
Definition reduceEMI_scenario (fuel : nat)
    (outstandingAfterPrepayments monthlyRate : num) (totalTenure monthsDone : Z)
  : option (completion ReduceEMI) :=
  let remainingOfficial := totalTenure - monthsDone in
  if remainingOfficial >? 0 then
    let newEmi :=
      computeEMI outstandingAfterPrepayments monthlyRate remainingOfficial in
    match amortizeUntilPaid fuel outstandingAfterPrepayments monthlyRate newEmi
            (of_Z (remainingOfficial + 5)) with
    | None => None
    | Some (Throw message) => Some (Throw message)
    | Some (Normal sched) =>
        let sched :=
          if Z.of_nat (length sched) >? remainingOfficial
          then take (Z.to_nat remainingOfficial) sched else sched in
        Some (Normal (mkReduce newEmi sched (sum_interest sched)))
    end
  else Some (Normal (mkReduce zero [] zero)).

(** The handler, persistence left out.  [None]: an amortization run capped by
    [Infinity] outlived [fuel]. *)
Definition reschedule (fuel : nat) (req : Request) : option Response :=
  let monthlyRate := (annualRate req / of_Z 100 / of_Z 12)%num in
  match starting_outstanding req monthlyRate with
  | inl response => Some response
  | inr outstanding =>
      let '(outstanding, simLog, simulateTargetMonth) :=
        apply_prepayments monthlyRate (req_emi req) (paidEmis req)
          (prepayments req) outstanding in
      match keepEMI_scenario fuel outstanding monthlyRate (req_emi req) with
      | None => None
      | Some keepEMI =>
          match reduceEMI_scenario fuel outstanding monthlyRate
                  (totalTenure req) simulateTargetMonth with
          | None => None
          | Some (Throw message) => Some (Status500 message)
          | Some (Normal reduceEMI) =>
              Some (Ok (mkBody simLog outstanding keepEMI reduceEMI))
          end
      end
  end.

End Handler.

(** ** A computable [Math.log]

    To run the handler on sample requests, the natural logarithm is taken by
    its area-tangent series [ln x = 2 (z + z^3/3 + z^5/5 + ...)],
    [z = (x-1)/(x+1)], cut after [LOG_TERMS] terms.  The theorems about the
    handler hold for every [Math_log]; this one only serves the sample runs. *)

Definition LOG_TERMS : nat := 48.

Fixpoint log_series (terms : nat) (z2 : Q) (k : positive) : Q :=
  match terms with
  | O => 0
  | S t => (1 # k) + z2 * log_series t z2 (k + 2)%positive
  end.

Definition Math_log (x : num) : num :=
  match x with
  | NaN | NegInf => NaN
  | PosInf => PosInf
  | Fin q =>
      match Qcompare q 0 with
      | Lt => NaN
      | Eq => NegInf
      | Gt =>
          let z := Qred ((q - 1) / (q + 1)) in
          Fin (Qred (2 * z * log_series LOG_TERMS (z * z) 1))
      end
  end.

(** ** Views of the code

    The body of one iteration of [amortizeUntilPaid], lines 58 to 63, as
    [(emiPaid, interest, principal, balance)]. *)
Definition amortize_step (monthlyRate emi balance : num)
  : completion (num * num * num * num) :=
  let interest := round (balance * monthlyRate) in
  let principal := (emi - interest)%num in
  if (principal <=? zero)%num then Throw EMI_TOO_SMALL
  else
    let principal :=
      if (principal >? balance)%num then balance else principal in
    let emiPaid := (interest + principal)%num in
    let balance := round (balance - principal) in
    Normal (emiPaid, interest, principal, balance).

(** The body of a successful response. *)
Definition response_body (r : option Response) : option Body :=
  match r with
  | Some (Ok body) => Some body
  | _ => None
  end.

(** The request with another prepayment list. *)
Definition with_prepayments (req : Request) (ps : list Prepayment) : Request :=
  mkRequest (officialSchedule req) (req_principal req) (annualRate req)
    (req_emi req) (totalTenure req) (paidEmis req) ps.

(** ** Section 4.2 in the specification's words

    One month of forward amortization, and a run as the sequence of months
    the specification describes: it stops when the balance is no longer
    positive or the count has reached the cap, fails when the principal
    component is not positive, and otherwise emits one row and goes on from
    the rounded balance. *)

Definition month_interest (monthlyRate balance : num) : num :=
  round (balance * monthlyRate).

Definition month_principal (monthlyRate emi balance : num) : num :=
  let due := (emi - month_interest monthlyRate balance)%num in
  if (due >? balance)%num then balance else due.

Definition month_balance (monthlyRate emi balance : num) : num :=
  round (balance - month_principal monthlyRate emi balance).

Definition month_row (monthlyRate emi balance : num) (count : Z) : ScheduleRow :=
  mkRow (count + 1)
    (month_interest monthlyRate balance + month_principal monthlyRate emi balance)
    (month_principal monthlyRate emi balance)
    (month_interest monthlyRate balance)
    (max (month_balance monthlyRate emi balance) zero).

Definition emit (row : ScheduleRow) (rest : completion (list ScheduleRow))
  : completion (list ScheduleRow) :=
  match rest with
  | Normal rows => Normal (row :: rows)
  | Throw message => Throw message
  end.

(** The rows already pushed, before the rest of a run. *)
Definition prepend (out : list ScheduleRow) (rest : completion (list ScheduleRow))
  : completion (list ScheduleRow) :=
  match rest with
  | Normal rows => Normal (out ++ rows)
  | Throw message => Throw message
  end.

Inductive amortizes (monthlyRate emi maxMonths : num)
  : num -> Z -> completion (list ScheduleRow) -> Prop :=
  | amortizes_stop balance count :
      (balance >? zero)%num && (of_Z count <? maxMonths)%num = false ->
      amortizes monthlyRate emi maxMonths balance count (Normal [])
  | amortizes_fatal balance count :
      (balance >? zero)%num && (of_Z count <? maxMonths)%num = true ->
      (emi - month_interest monthlyRate balance <=? zero)%num = true ->
      amortizes monthlyRate emi maxMonths balance count (Throw EMI_TOO_SMALL)
  | amortizes_month balance count rest :
      (balance >? zero)%num && (of_Z count <? maxMonths)%num = true ->
      (emi - month_interest monthlyRate balance <=? zero)%num = false ->
      amortizes monthlyRate emi maxMonths
        (month_balance monthlyRate emi balance) (count + 1) rest ->
      amortizes monthlyRate emi maxMonths balance count
        (emit (month_row monthlyRate emi balance count) rest).

(** ** Section 4.3 in the specification's words

    The annuity formula on exact rationals, rounded to the nearest integer:
    [round(balance * r * (1+r)^n / ((1+r)^n - 1))]. *)
Definition annuity (balance r : Q) (n : Z) : Z :=
  Qfloor (balance * r * (1 + r) ^ n / ((1 + r) ^ n - 1) + (1 # 2))%Q.

(** ** Section 4.4 in the specification's words

    The special case: the prepayment
    scheduled at [paidEmis] is taken off the starting balance before any
    further EMI step, and its event heads the log. *)
Definition apply_prepayments_spec (monthlyRate emi : num) (paidEmis : Z)
    (ps : list Prepayment) (outstanding : num) : num * list SimEvent * Z :=
  let prepayMap := build_prepayMap ps in
  let simulateTargetMonth := Z.max (lastPrepayMonth prepayMap paidEmis) paidEmis in
  let '(outstanding, simLog) := retroactive_prepay prepayMap paidEmis (outstanding, []) in
  (simulate monthlyRate emi prepayMap
     (Z.to_nat (simulateTargetMonth - paidEmis)) paidEmis outstanding simLog,
   simulateTargetMonth).

(** ** Section 4.5 in the specification's words

    Scenario A as a statement about its result: infinite months and interest
    with an empty schedule when [emi - balance * r <= 0]; otherwise the
    closed-form month count, the schedule of [amortizeUntilPaid] capped at
    five months more, and the sum of its interest column. *)
Definition keepEMI_as_specified (Math_log : num -> num) (fuel : nat)
    (balance monthlyRate emi : num) (k : KeepEMI) : Prop :=
  let denom := (emi - balance * monthlyRate)%num in
  if (denom <=? zero)%num then
    monthsToFinish k = PosInf /\ keep_totalInterest k = PosInf
    /\ schedule k = [] /\ keep_error k = None
  else
    monthsToFinish k
      = ceil (Math_log (emi / denom) / Math_log (one + monthlyRate))%num
    /\ amortizeUntilPaid fuel balance monthlyRate emi
         (monthsToFinish k + of_Z 5) = Some (Normal (schedule k))
    /\ keep_totalInterest k = sum_interest (schedule k).

(** ** Section 4.6 in the specification's words

    Scenario B of a response: with [remainingMonths = totalTenure -
    max(paidEmis, latest prepayment month)], a zero EMI, an empty schedule and
    zero interest when [remainingMonths <= 0]; otherwise the EMI of
    [computeEMI] over [remainingMonths], the schedule [amortizeUntilPaid]
    returns under the cap [remainingMonths + 5] cut to at most
    [remainingMonths] rows, and the sum of interest over the rows returned. *)
Definition reduceEMI_as_specified (fuel : nat) (req : Request) (body : Body)
  : Prop :=
  let monthlyRate := (annualRate req / of_Z 100 / of_Z 12)%num in
  let balance := outstandingAfterPrepayments body in
  let remainingMonths :=
    totalTenure req
    - Z.max (paidEmis req)
        (lastPrepayMonth (build_prepayMap (prepayments req)) (paidEmis req)) in
  if remainingMonths <=? 0 then reduceEMI body = mkReduce zero [] zero
  else
    exists sched,
      amortizeUntilPaid fuel balance monthlyRate
        (computeEMI balance monthlyRate remainingMonths)
        (of_Z (remainingMonths + 5)) = Some (Normal sched)
      /\ newEmi (reduceEMI body) = computeEMI balance monthlyRate remainingMonths
      /\ remainingSchedule (reduceEMI body)
         = take (Z.to_nat remainingMonths) sched
      /\ Z.of_nat (length (remainingSchedule (reduceEMI body))) <= remainingMonths
      /\ reduce_totalInterest (reduceEMI body)
         = sum_interest (remainingSchedule (reduceEMI body)).

(** ** Section 8 in the specification's words

    The rows of a schedule: every [remaining] is non-negative and
    is the rounded difference of the previous one and the row's principal,
    and the column never increases from a row to the next. *)
Fixpoint remaining_ok (previous : num) (rows : list ScheduleRow) : Prop :=
  match rows with
  | [] => True
  | row :: rest =>
      (zero <=? remaining row)%num = true
      /\ remaining row = round (previous - principal row)
      /\ remaining_ok (remaining row) rest
  end.

Fixpoint non_increasing (rows : list ScheduleRow) : Prop :=
  match rows with
  | r1 :: (r2 :: _) as rest =>
      (remaining r2 <=? remaining r1)%num = true /\ non_increasing rest
  | _ => True
  end.

(** ** Sample requests *)

(** Example 1 of the specification. *)
Definition example1 : Request :=
  mkRequest None (Some (of_Z 3200000)) (Fin (835 # 100)) (of_Z 31231) 180 4 [].

(** A prepayment right after the paid EMI, and one a month later. *)
Definition two_prepayments : Request :=
  mkRequest None (Some (of_Z 100000)) (of_Z 12) (of_Z 2000) 60 1
    [mkPrepay (Some 1) (of_Z 50000); mkPrepay (Some 2) (of_Z 1000)].

(** An EMI below the monthly interest. *)
Definition small_emi : Request :=
  mkRequest None (Some (of_Z 100000)) (of_Z 12) (of_Z 500) 60 0
    [mkPrepay (Some 1) (of_Z 1000)].

(** A small loan over a long tenure, with a comfortable EMI and with one that
    rounds down to the first month's interest. *)
Definition tiny_loan : Request :=
  mkRequest None (Some (of_Z 150)) (of_Z 12) (of_Z 10) 120 0 [].

Definition tiny_loan_low_emi : Request :=
  mkRequest None (Some (of_Z 150)) (of_Z 12) (of_Z 2) 120 0 [].

(** An EMI above the exact monthly interest but not above the rounded one. *)
Definition half_unit_interest : Request :=
  mkRequest None (Some (of_Z 50)) (of_Z 12) (of_Z 1) 12 0 [].

(** A fractional EMI. *)
Definition fractional_emi : Request :=
  mkRequest None (Some (of_Z 1000)) (of_Z 12) (Fin (201 # 2)) 12 0 [].

(** A two-month loan, and the body of the response to it. *)
Definition short_loan : Request :=
  mkRequest None (Some (of_Z 100)) (of_Z 120) (of_Z 60) 2 0 [].

Definition short_loan_body : Body :=
  mkBody [] (of_Z 100)
    (mkKeep (of_Z 2)
       [mkRow 1 (of_Z 60) (of_Z 50) (of_Z 10) (of_Z 50);
        mkRow 2 (of_Z 55) (of_Z 50) (of_Z 5) (of_Z 0)]
       (of_Z 15) None)
    (mkReduce (of_Z 58)
       [mkRow 1 (of_Z 58) (of_Z 48) (of_Z 10) (of_Z 52);
        mkRow 2 (of_Z 57) (of_Z 52) (of_Z 5) (of_Z 0)]
       (of_Z 15)).

(** [rows.reduce((s, r) => s + r.principal, 0)], the principal paid by a
    schedule. *)
Definition sum_principal (rows : list ScheduleRow) : num :=
  foldl (fun s r => (s + principal r)%num) zero rows.

(** The balance a schedule leaves: the [remaining] of its last row, or the
    starting balance when it has no row. *)
Definition final_remaining (balance : num) (rows : list ScheduleRow) : num :=
  default balance (remaining <$> last rows).

(** A request entry [{ month, amount }] whose amount is an integer; the month
    is [None] when [Number(p.month)] is [NaN]. *)
Definition int_entry (e : option Z * Z) : Prepayment :=
  mkPrepay e.1 (of_Z e.2).

(** The integer amounts that the merge adds up under month [m]: those of the
    entries dated [m] that pass [!(!mm || aa <= 0)]. *)
Definition amounts_at (m : Z) (es : list (option Z * Z)) : list Z :=
  (filter (fun e : option Z * Z => e.1 = Some m /\ m <> 0 /\ 0 < e.2) es).*2.

Definition sum_Z (l : list Z) : Z := foldr Z.add 0 l.

(** ** The outline of a simulation log

    The [month] and [action] fields of a log entry. *)
Definition ev_month (ev : SimEvent) : Z :=
  match ev with
  | EMI m _ _ _ _ | PREPAY m _ _ _ | PREPAY_AFTER_ALREADY_PAID_EMI m _ _ _ => m
  end.

Definition ev_action (ev : SimEvent) : string :=
  match ev with
  | EMI _ _ _ _ _ => "EMI"
  | PREPAY _ _ _ _ => "PREPAY"
  | PREPAY_AFTER_ALREADY_PAID_EMI _ _ _ _ => "PREPAY_AFTER_ALREADY_PAID_EMI"
  end.

(** A log reduced to the month and the action of each entry. *)
Definition outline (simLog : list SimEvent) : list (Z * string) :=
  (fun ev => (ev_month ev, ev_action ev)) <$> simLog.

(** The entries expected of one simulated month, and of a whole log: the
    prepayment at [paidEmis] first, then month after month up to the target
    the EMI and, where a prepayment is scheduled, the prepayment. *)
Definition month_outline (prepayMap : gmap Z num) (m : Z) : list (Z * string) :=
  (m, "EMI") :: (if scheduled prepayMap m is Some _ then [(m, "PREPAY")] else []).

Definition expected_outline (prepayMap : gmap Z num) (paidEmis target : Z)
  : list (Z * string) :=
  (if scheduled prepayMap paidEmis is Some _
   then [(paidEmis, "PREPAY_AFTER_ALREADY_PAID_EMI")] else [])
  ++ (seqZ (paidEmis + 1) (target - paidEmis) ≫= month_outline prepayMap).

(** The test [!mm || aa <= 0] of the merge. *)
Definition discarded (p : Prepayment) : bool :=
  match pp_month p with
  | Some mm => (mm =? 0) || (pp_amount p <=? zero)%num
  | None => true
  end.

(** A request that gives the balances of an official schedule, two EMIs paid. *)
Definition with_official_schedule : Request :=
  mkRequest (Some [of_Z 99000; of_Z 97990; of_Z 96970]) (Some (of_Z 5))
    (of_Z 12) (of_Z 2000) 60 2 [].

(** An official schedule without rows, and no principal. *)
Definition empty_official_schedule : Request :=
  mkRequest (Some []) None (of_Z 12) (of_Z 2000) 60 0 [].

(** * Properties *)

(** ** Facts about numbers *)

Lemma cmp_of_Z (a b : Z) : cmp (of_Z a) (of_Z b) = Some (a ?= b).
Proof. unfold of_Z, cmp, Qcompare; simpl. now rewrite !Z.mul_1_r. Qed.

Lemma ltb_of_Z (a b : Z) : (of_Z a <? of_Z b)%num = (a <? b).
Proof. unfold ltb. rewrite cmp_of_Z. unfold Z.ltb. now destruct (a ?= b). Qed.

Lemma ltb_Fin_ceiling (m : Z) (q : Q) :
  (of_Z m <? Fin q)%num = true -> m < Qceiling q.
Proof.
  unfold ltb, of_Z, cmp. destruct (Qcompare (inject_Z m) q) eqn:E; try discriminate.
  intros _. apply Qlt_alt in E.
  assert (H : (inject_Z m < inject_Z (Qceiling q))%Q)
    by (eapply Qlt_le_trans; [exact E | apply Qle_ceiling]).
  rewrite <- Zlt_Qlt in H. exact H.
Qed.

Lemma ltb_Fin (x y : Q) : (Fin x <? Fin y)%num = true <-> (x < y)%Q.
Proof.
  unfold ltb, cmp. rewrite Qlt_alt. destruct (Qcompare x y); split; congruence.
Qed.

Lemma leb_Fin (x y : Q) : (Fin x <=? Fin y)%num = true <-> (x <= y)%Q.
Proof.
  unfold leb, cmp. rewrite Qle_alt.
  destruct (Qcompare x y); split; congruence.
Qed.

Lemma leb_Fin_false (x y : Q) : (Fin x <=? Fin y)%num = false <-> (y < x)%Q.
Proof.
  rewrite <- not_true_iff_false, leb_Fin. split.
  - apply Qnot_le_lt.
  - apply Qlt_not_le.
Qed.

Lemma ltb_Fin_false (x y : Q) : (Fin x <? Fin y)%num = false <-> (y <= x)%Q.
Proof.
  rewrite <- not_true_iff_false, ltb_Fin. split.
  - apply Qnot_lt_le.
  - apply Qle_not_lt.
Qed.

(** On finite numbers the loop guard fails exactly when the balance is not
    positive or the count has reached the cap. *)
Lemma stop_condition (b : Q) (count cap : Z) :
  (Fin b >? zero)%num && (of_Z count <? of_Z cap)%num = false
  <-> (b <= 0)%Q \/ cap <= count.
Proof.
  rewrite andb_false_iff. unfold gtb, zero, of_Z at 1.
  rewrite ltb_Fin_false, ltb_of_Z, Z.ltb_ge. reflexivity.
Qed.

Lemma leb_of_Z (a b : Z) : (of_Z a <=? of_Z b)%num = (a <=? b).
Proof. unfold leb. rewrite cmp_of_Z. unfold Z.leb. now destruct (a ?= b). Qed.

Lemma max_of_Z_zero (z : Z) : 0 <= z -> max (of_Z z) zero = of_Z z.
Proof.
  intros Hz. unfold max, zero. rewrite cmp_of_Z.
  destruct (Z.compare_spec z 0); try reflexivity. lia.
Qed.

Lemma sub_Fin (x y : Q) : exists d, (Fin x - Fin y)%num = Fin d /\ (d == x - y)%Q.
Proof.
  eexists. split; [reflexivity|]. now rewrite !Qred_correct.
Qed.

Lemma round_nonneg (d : Q) : (0 <= d)%Q -> 0 <= Qfloor (d + (1 # 2)).
Proof.
  intros Hd. change 0 with (Qfloor 0). apply Qfloor_resp_le. lra.
Qed.

Lemma round_below (d : Q) (z : Z) :
  (d < inject_Z z)%Q -> Qfloor (d + (1 # 2)) <= z.
Proof.
  intros Hd.
  assert (H : (inject_Z (Qfloor (d + (1 # 2))) < inject_Z z + (1 # 2))%Q).
  { eapply Qle_lt_trans; [apply Qfloor_le|]. now apply Qplus_lt_l. }
  revert H. generalize (Qfloor (d + (1 # 2))). intros f.
  unfold Qlt, Qplus, inject_Z; simpl. lia.
Qed.

Lemma Qeq_bool_false (x y : Q) : ~ (x == y)%Q -> Qeq_bool x y = false.
Proof.
  intros H. destruct (Qeq_bool x y) eqn:E; [|reflexivity].
  now apply Qeq_bool_iff in E.
Qed.

Lemma Qred_inject_Z (q : Q) (z : Z) : (q == inject_Z z)%Q -> Qred q = inject_Z z.
Proof.
  intros H. rewrite (Qred_complete _ _ H). apply Qred_identity.
  simpl. apply Z.gcd_1_r.
Qed.

Lemma add_of_Z (a b : Z) : (of_Z a + of_Z b)%num = of_Z (a + b).
Proof.
  unfold of_Z, add. f_equal. apply Qred_inject_Z.
  now rewrite inject_Z_plus.
Qed.

Lemma sub_of_Z (a b : Z) : (of_Z a - of_Z b)%num = of_Z (a - b).
Proof.
  unfold of_Z, sub, add, opp. f_equal. apply Qred_inject_Z.
  rewrite Qred_correct. unfold Z.sub.
  now rewrite inject_Z_plus, inject_Z_opp.
Qed.

Lemma round_is_integer (q : Q) : is_integer (round (Fin q)).
Proof. eexists. reflexivity. Qed.

Lemma half_not_integer (n : Z) : ~ is_integer (Fin (n # 2)).
Proof. intros [z H]. unfold of_Z, inject_Z in H. discriminate. Qed.

(** ** The loop against the specification's run *)

Lemma prepend_emit out row rest :
  prepend (out ++ [row]) rest = prepend out (emit row rest).
Proof. destruct rest; simpl; [rewrite <- app_assoc|]; reflexivity. Qed.

Lemma amortize_loop_amortizes monthlyRate emi maxMonths fuel :
  forall balance count out res,
    amortize_loop monthlyRate emi maxMonths fuel balance count out = Some res ->
    exists rest,
      amortizes monthlyRate emi maxMonths balance count rest
      /\ res = prepend out rest.
Proof.
  induction fuel as [|fuel IH]; intros balance count out res; simpl;
    destruct ((balance >? zero)%num && (of_Z count <? maxMonths)%num) eqn:G;
    intros H; try discriminate.
  - injection H as <-. exists (Normal []). split; [now constructor|].
    simpl. now rewrite app_nil_r.
  - destruct ((emi - round (balance * monthlyRate) <=? zero)%num) eqn:P.
    + injection H as <-. exists (Throw EMI_TOO_SMALL).
      split; [now apply amortizes_fatal|reflexivity].
    + apply IH in H as (rest & Hrest & ->).
      exists (emit (month_row monthlyRate emi balance count) rest). split.
      * now apply amortizes_month.
      * apply prepend_emit.
  - injection H as <-. exists (Normal []). split; [now constructor|].
    simpl. now rewrite app_nil_r.
Qed.

(** The run the specification describes is unique. *)
Lemma amortizes_functional monthlyRate emi maxMonths balance count r1 r2 :
  amortizes monthlyRate emi maxMonths balance count r1 ->
  amortizes monthlyRate emi maxMonths balance count r2 -> r1 = r2.
Proof.
  intros H1; revert r2.
  induction H1 as [b c G|b c G P|b c rest G P H IH]; intros r2 H2;
    inversion H2; subst; try congruence.
  f_equal. now apply IH.
Qed.

Lemma amortizes_length monthlyRate emi (cap : Z) balance count rows :
  amortizes monthlyRate emi (of_Z cap) balance count (Normal rows) ->
  Z.of_nat (length rows) <= Z.max 0 (cap - count).
Proof.
  intros H. remember (Normal rows) as res eqn:E. revert rows E.
  induction H as [b c G|b c G P|b c rest G P H IH]; intros rows E.
  - injection E as <-. simpl. lia.
  - discriminate.
  - destruct rest as [rows'|]; [|discriminate]. injection E as <-.
    apply andb_true_iff in G as [_ G]. rewrite ltb_of_Z in G.
    apply Z.ltb_lt in G. specialize (IH rows' eq_refl). simpl length. lia.
Qed.

(** A run with a cap other than [Infinity] never runs out of iterations. *)
Lemma amortize_loop_bounded monthlyRate emi (q : Q) fuel :
  forall balance count out,
    (Z.to_nat (Qceiling q - count) <= fuel)%nat ->
    exists res,
      amortize_loop monthlyRate emi (Fin q) fuel balance count out = Some res.
Proof.
  induction fuel as [|fuel IH]; intros balance count out Hf; simpl;
    destruct ((balance >? zero)%num && (of_Z count <? Fin q)%num) eqn:G;
    eauto.
  - apply andb_true_iff in G as [_ G]. apply ltb_Fin_ceiling in G. lia.
  - destruct ((emi - round (balance * monthlyRate) <=? zero)%num); eauto.
    apply IH. apply andb_true_iff in G as [_ G]. apply ltb_Fin_ceiling in G. lia.
Qed.

Lemma amortizeUntilPaid_returns fuel balance monthlyRate emi maxMonths :
  maxMonths <> PosInf ->
  exists res, amortizeUntilPaid fuel balance monthlyRate emi maxMonths = Some res.
Proof.
  intros Hcap. unfold amortizeUntilPaid.
  destruct maxMonths as [| | |q]; try congruence.
  - simpl. rewrite andb_false_r. eauto.
  - simpl. replace (of_Z 0 <? NegInf)%num with false by reflexivity.
    rewrite andb_false_r. eauto.
  - apply amortize_loop_bounded. simpl. lia.
Qed.

(** ** One month on finite numbers *)

Lemma month_finite (r e b : Q) :
  (Fin b >? zero)%num = true ->
  (Fin e - month_interest (Fin r) (Fin b) <=? zero)%num = false ->
  exists (p : Q) (b' : Z),
    month_principal (Fin r) (Fin e) (Fin b) = Fin p
    /\ month_balance (Fin r) (Fin e) (Fin b) = of_Z b'
    /\ 0 <= b'
    /\ (forall z, b = inject_Z z -> b' <= z).
Proof.
  intros Hb Hdue. unfold month_balance, month_principal.
  unfold month_interest in *.
  change (round (Fin b * Fin r)) with (Fin (inject_Z (Qfloor (Qred (b * r) + (1 # 2))))) in *.
  destruct (sub_Fin e (inject_Z (Qfloor (Qred (b * r) + (1 # 2)))))
    as (d & Ed & _).
  rewrite Ed in *. clear Ed.
  apply leb_Fin_false in Hdue. apply ltb_Fin in Hb.
  change (inject_Z 0) with 0%Q in *.
  assert (Hp : exists p, (if (Fin d >? Fin b)%num then Fin b else Fin d) = Fin p
                         /\ (0 < p)%Q /\ (p <= b)%Q).
  { destruct (Fin d >? Fin b)%num eqn:C.
    - exists b. repeat split; [exact Hb | lra].
    - exists d. apply ltb_Fin_false in C. repeat split; assumption. }
  clear Hdue.
  destruct Hp as (p & -> & Hp0 & Hpb). exists p.
  destruct (sub_Fin b p) as (d2 & -> & Hd2).
  exists (Qfloor (d2 + (1 # 2))). repeat split.
  - apply round_nonneg. lra.
  - intros z ->. apply round_below. lra.
Qed.

(** ** Invariants of a schedule on finite inputs *)

Lemma amortizes_invariants (r e : Q) (maxMonths : num) :
  forall balance count res,
    amortizes (Fin r) (Fin e) maxMonths balance count res ->
    forall b rows, balance = Fin b -> res = Normal rows ->
      remaining_ok (Fin b) rows
      /\ non_increasing rows
      /\ (forall z row, b = inject_Z z -> head rows = Some row ->
            (remaining row <=? of_Z z)%num = true)
      /\ (forall row, last rows = Some row ->
            remaining row = zero
            \/ (of_Z (count + Z.of_nat (length rows)) <? maxMonths)%num = false).
Proof.
  induction 1 as [B c G|B c G P|B c rest G P H IH]; intros b rows -> E.
  - injection E as <-. simpl. repeat split; intros; discriminate.
  - discriminate.
  - destruct rest as [rows'|]; [|discriminate]. injection E as <-.
    pose proof G as G'. apply andb_true_iff in G' as [Gb Gc].
    destruct (month_finite r e b Gb P) as (p & b' & Hp & Hb' & Hpos & Hle).
    specialize (IH (inject_Z b') rows' Hb' eq_refl)
      as (IHok & IHmono & IHhead & IHlast).
    assert (Hrem : remaining (month_row (Fin r) (Fin e) (Fin b) c) = of_Z b').
    { simpl. rewrite Hb'. now apply max_of_Z_zero. }
    repeat split.
    + rewrite Hrem. change zero with (of_Z 0). rewrite leb_of_Z. now apply Z.leb_le.
    + rewrite Hrem, <- Hb'. reflexivity.
    + rewrite Hrem. exact IHok.
    + destruct rows' as [|r2 rows'']; [exact I|]. split; [|exact IHmono].
      rewrite Hrem. now apply (IHhead b' r2).
    + intros z row -> [= <-]. rewrite Hrem, leb_of_Z. apply Z.leb_le. now apply Hle.
    + intros row Hlast. destruct rows' as [|r2 rows''].
      * injection Hlast as <-.
        inversion H as [B' c' G2| |B' c' rest' _ _ _ E']; subst;
          [|destruct rest'; discriminate].
        rewrite Hrem. rewrite Hb' in G2.
        apply andb_false_iff in G2 as [G2|G2].
        -- left. unfold gtb in G2. change zero with (of_Z 0) in G2.
           rewrite ltb_of_Z in G2. apply Z.ltb_ge in G2.
           replace b' with 0 by lia. reflexivity.
        -- right. simpl length. now replace (c + Z.of_nat 1) with (c + 1) by lia.
      * destruct (IHlast row Hlast) as [Hz|Hc]; [now left|right].
        simpl length in *.
        now replace (c + Z.of_nat (S (S (length rows''))))
          with (c + 1 + Z.of_nat (S (length rows''))) by lia.
Qed.

Lemma amortizeUntilPaid_amortizes fuel balance monthlyRate emi maxMonths res :
  amortizeUntilPaid fuel balance monthlyRate emi maxMonths = Some res ->
  amortizes monthlyRate emi maxMonths balance 0 res.
Proof.
  intros H. apply amortize_loop_amortizes in H as (rest & Hrest & ->).
  now destruct rest.
Qed.

(** ** Sample runs *)

Example amortize_small :
  amortizeUntilPaid 0 (of_Z 100) (Fin (1 # 10)) (of_Z 60) (of_Z 5)
  = Some (Normal [mkRow 1 (of_Z 60) (of_Z 50) (of_Z 10) (of_Z 50);
                  mkRow 2 (of_Z 55) (of_Z 50) (of_Z 5) (of_Z 0)]).
Proof. vm_compute. reflexivity. Qed.

(** Example 1 of the specification: four EMIs paid on 3,200,000 at 8.35%,
    no prepayment; about 176 months to finish at the same EMI, and a new EMI
    equal to the original. *)
Example specification_example_1 :
  let body := response_body (reschedule Math_log 0 example1) in
  (outstandingAfterPrepayments <$> body) = Some (of_Z 3163766)
  /\ (simLog <$> body) = Some []
  /\ (monthsToFinish <$> (keepEMI <$> body)) = Some (of_Z 176)
  /\ (length <$> (schedule <$> (keepEMI <$> body))) = Some 176%nat
  /\ (newEmi <$> (reduceEMI <$> body)) = Some (of_Z 31231).
Proof. vm_compute. repeat split. Qed.

(** ** Forward amortization (section 4.2) *)



(** ** Invariants of the schedule (section 8) *)

(** C8 — in every schedule [amortizeUntilPaid] returns on finite inputs, each
    row has [remaining >= 0] and [remaining = round(previous remaining -
    principal)] (the starting balance standing before the first row), the
    [remaining] column never increases from a row to the next, and the last
    row's [remaining] is [0] unless the schedule stopped at the cap. *)
Theorem schedule_remaining_invariants (fuel : nat) (balance monthlyRate emi : Q)
    (maxMonths : num) (rows : list ScheduleRow) :
  amortizeUntilPaid fuel (Fin balance) (Fin monthlyRate) (Fin emi) maxMonths
    = Some (Normal rows) ->
  remaining_ok (Fin balance) rows
  /\ non_increasing rows
  /\ (forall row, last rows = Some row ->
        remaining row = zero
        \/ (of_Z (Z.of_nat (length rows)) <? maxMonths)%num = false).
Proof.
  intros H. apply amortizeUntilPaid_amortizes in H.
  destruct (amortizes_invariants _ _ _ _ _ _ H balance rows eq_refl eq_refl)
    as (Hok & Hmono & _ & Hlast).
  repeat split; assumption.
Qed.

Lemma schedule_remaining_invariants_witness :
  let rows := [mkRow 1 (of_Z 60) (of_Z 50) (of_Z 10) (of_Z 50);
               mkRow 2 (of_Z 55) (of_Z 50) (of_Z 5) (of_Z 0)] in
  amortizeUntilPaid 0 (Fin 100) (Fin (1 # 10)) (Fin 60) (of_Z 5)
    = Some (Normal rows)
  /\ (remaining_ok (Fin 100) rows
      /\ non_increasing rows
      /\ (forall row, last rows = Some row ->
            remaining row = zero
            \/ (of_Z (Z.of_nat (length rows)) <? of_Z 5)%num = false)).
Proof.
  split; [reflexivity|].
  apply (schedule_remaining_invariants 0 100 (1 # 10) 60 (of_Z 5)). reflexivity.
Defined.

(** ** The EMI step of the forward simulation (section 4.4) *)

Lemma amortize_loop_step monthlyRate emi maxMonths fuel balance count out :
  amortize_loop monthlyRate emi maxMonths (S fuel) balance count out
  = if (balance >? zero)%num && (of_Z count <? maxMonths)%num then
      match amortize_step monthlyRate emi balance with
      | Throw message => Some (Throw message)
      | Normal (emiPaid, interest, principal, balance') =>
          amortize_loop monthlyRate emi maxMonths fuel balance' (count + 1)
            (out ++ [mkRow (count + 1) emiPaid principal interest
                       (max balance' zero)])
      end
    else Some (Normal out).
Proof.
  simpl. unfold amortize_step.
  destruct ((balance >? zero)%num && (of_Z count <? maxMonths)%num);
    [|reflexivity].
  now destruct ((emi - round (balance * monthlyRate) <=? zero)%num).
Qed.

Lemma simulate_step monthlyRate emi prepayMap n currentMonth outstanding simLog :
  simulate monthlyRate emi prepayMap (S n) currentMonth outstanding simLog
  = let '(emiPaid, interest, principalPart, outstanding') :=
      emi_step monthlyRate emi outstanding in
    let simLog :=
      simLog ++ [EMI (currentMonth + 1) emiPaid interest principalPart
                   outstanding'] in
    match scheduled prepayMap (currentMonth + 1) with
    | Some amount =>
        simulate monthlyRate emi prepayMap n (currentMonth + 1)
          (max zero (round (outstanding' - amount)))
          (simLog ++ [PREPAY (currentMonth + 1) amount outstanding'
                        (max zero (round (outstanding' - amount)))])
    | None =>
        simulate monthlyRate emi prepayMap n (currentMonth + 1) outstanding' simLog
    end.
Proof. reflexivity. Qed.

(** C3, as the code has it — the EMI step of the forward simulation takes the
    same interest, the same clipped principal and the same rounded balance as
    one step of [amortizeUntilPaid] whenever that step does not fail; where
    [amortizeUntilPaid] fails because [emi - interest <= 0], the simulation
    signals nothing and goes on with that principal. *)
Theorem emi_step_against_amortize_step (monthlyRate emi outstanding : num) :
  match amortize_step monthlyRate emi outstanding with
  | Normal step => emi_step monthlyRate emi outstanding = step
  | Throw message =>
      message = EMI_TOO_SMALL
      /\ (emi - round (outstanding * monthlyRate) <=? zero)%num = true
      /\ (emi_step monthlyRate emi outstanding).1.2
         = if (emi - round (outstanding * monthlyRate) >? outstanding)%num
           then outstanding
           else (emi - round (outstanding * monthlyRate))%num
  end.
Proof.
  unfold amortize_step, emi_step.
  destruct ((emi - round (outstanding * monthlyRate) <=? zero)%num) eqn:P;
    [|reflexivity].
  repeat split.
Qed.

(** C3 as stated fails: with an EMI of 500 against 1000 of interest, a step of
    [amortizeUntilPaid] fails, while the simulation logs an EMI event with a
    principal of -500, lets the balance grow, and the request succeeds. *)
Lemma simulation_step_never_fails :
  amortize_step (Fin (1 # 100)) (of_Z 500) (of_Z 100000) = Throw EMI_TOO_SMALL
  /\ emi_step (Fin (1 # 100)) (of_Z 500) (of_Z 100000)
     = (of_Z 500, of_Z 1000, of_Z (-500), of_Z 100500)
  /\ (simLog <$> response_body (reschedule Math_log 0 small_emi))
     = Some [EMI 1 (of_Z 500) (of_Z 1000) (of_Z (-500)) (of_Z 100500);
             PREPAY 1 (of_Z 1000) (of_Z 100500) (of_Z 99500)].
Proof. vm_compute. repeat split. Qed.

(** ** The prepayment at the [paidEmis] boundary (section 4.4) *)

Lemma retroactive_event_heads_log prepayMap paidEmis outstanding simLog amount :
  scheduled prepayMap paidEmis = Some amount ->
  exists outstanding',
    (retroactive_prepay prepayMap paidEmis (outstanding, simLog)).2
    = PREPAY_AFTER_ALREADY_PAID_EMI paidEmis amount outstanding outstanding'
      :: simLog.
Proof. intros H. unfold retroactive_prepay. rewrite H. simpl. eauto. Qed.

(** With no prepayment after [paidEmis] the loop does not run, and the code
    does what the specification says. *)
Lemma apply_prepayments_no_later_month monthlyRate emi paidEmis ps outstanding :
  lastPrepayMonth (build_prepayMap ps) paidEmis <= paidEmis ->
  apply_prepayments monthlyRate emi paidEmis ps outstanding
  = apply_prepayments_spec monthlyRate emi paidEmis ps outstanding.
Proof.
  intros H. unfold apply_prepayments, apply_prepayments_spec.
  replace (Z.to_nat (Z.max (lastPrepayMonth (build_prepayMap ps) paidEmis)
                      paidEmis - paidEmis)) with O by lia.
  cbn [simulate].
  now destruct (retroactive_prepay (build_prepayMap ps) paidEmis (outstanding, [])).
Qed.

(** C2 fails on the code — with prepayments after EMI 1 (the paid one) and
    after EMI 2, the first is taken off the balance only after the EMI of
    month 2 has been charged on the full balance: its event stands first in
    the log with [before = 96990], not the starting 99000, and the balance
    ends at 46990 where the specified order gives 46490. *)
Theorem boundary_prepayment_applied_after_loop :
  starting_outstanding two_prepayments (Fin (1 # 100)) = inr (of_Z 99000)
  /\ (simLog <$> response_body (reschedule Math_log 0 two_prepayments))
     = Some
         [PREPAY_AFTER_ALREADY_PAID_EMI 1 (of_Z 50000) (of_Z 96990) (of_Z 46990);
          EMI 2 (of_Z 2000) (of_Z 990) (of_Z 1010) (of_Z 97990);
          PREPAY 2 (of_Z 1000) (of_Z 97990) (of_Z 96990)]
  /\ (outstandingAfterPrepayments
        <$> response_body (reschedule Math_log 0 two_prepayments))
     = Some (of_Z 46990)
  /\ apply_prepayments_spec (Fin (1 # 100)) (of_Z 2000) 1
       (prepayments two_prepayments) (of_Z 99000)
     = (of_Z 46490,
        [PREPAY_AFTER_ALREADY_PAID_EMI 1 (of_Z 50000) (of_Z 99000) (of_Z 49000);
         EMI 2 (of_Z 2000) (of_Z 490) (of_Z 1510) (of_Z 47490);
         PREPAY 2 (of_Z 1000) (of_Z 47490) (of_Z 46490)],
        2)
  /\ apply_prepayments (Fin (1 # 100)) (of_Z 2000) 1
       (prepayments two_prepayments) (of_Z 99000)
     <> apply_prepayments_spec (Fin (1 # 100)) (of_Z 2000) 1
          (prepayments two_prepayments) (of_Z 99000).
Proof. vm_compute. repeat split; try reflexivity. discriminate. Qed.

(** ** Scenario A: keep the EMI (section 4.5) *)

(** C4, as the code has it — when [emi - balance * r <= 0] the scenario
    reports infinite months and interest, an empty schedule and no error;
    otherwise [monthsToFinish] is the closed form, and either
    [amortizeUntilPaid] capped at [monthsToFinish + 5] returns, its schedule
    and the sum of its interest column being the result, or it fails, and the
    scenario keeps the empty schedule and zero interest and carries the
    message as its error. *)
Theorem keepEMI_scenario_spec (Math_log : num -> num) (fuel : nat)
    (balance monthlyRate emi : num) (k : KeepEMI) :
  keepEMI_scenario Math_log fuel balance monthlyRate emi = Some k ->
  let denom := (emi - balance * monthlyRate)%num in
  if (denom <=? zero)%num then k = mkKeep PosInf [] PosInf None
  else
    monthsToFinish k
      = ceil (Math_log (emi / denom) / Math_log (one + monthlyRate))%num
    /\ match amortizeUntilPaid fuel balance monthlyRate emi
               (monthsToFinish k + of_Z 5) with
       | Some (Normal sched) =>
           schedule k = sched /\ keep_totalInterest k = sum_interest sched
           /\ keep_error k = None
       | Some (Throw message) =>
           schedule k = [] /\ keep_totalInterest k = zero
           /\ keep_error k = Some message
       | None => False
       end.
Proof.
  intros H. unfold keepEMI_scenario in H. cbv zeta in *.
  destruct (emi - balance * monthlyRate <=? zero)%num; [congruence|].
  destruct (amortizeUntilPaid fuel balance monthlyRate emi
              (ceil (Math_log (emi / (emi - balance * monthlyRate))
                     / Math_log (one + monthlyRate))
               + of_Z 5)%num) as [[sched|message]|] eqn:E;
    [| |discriminate]; apply (inj Some) in H; subst k;
    cbn [monthsToFinish schedule keep_totalInterest keep_error];
    rewrite E; repeat split.
Qed.

Lemma keepEMI_scenario_spec_witness :
  let k :=
    mkKeep (of_Z 2)
      [mkRow 1 (of_Z 60) (of_Z 50) (of_Z 10) (of_Z 50);
       mkRow 2 (of_Z 55) (of_Z 50) (of_Z 5) (of_Z 0)]
      (of_Z 15) None in
  keepEMI_scenario Math_log 0 (of_Z 100) (Fin (1 # 10)) (of_Z 60) = Some k
  /\ monthsToFinish k
     = ceil (Math_log (of_Z 60 / (of_Z 60 - of_Z 100 * Fin (1 # 10)))
             / Math_log (one + Fin (1 # 10)))%num
  /\ schedule k <> [].
Proof.
  intros k.
  assert (H : keepEMI_scenario Math_log 0 (of_Z 100) (Fin (1 # 10)) (of_Z 60)
              = Some k) by (vm_compute; reflexivity).
  split; [exact H|].
  pose proof (keepEMI_scenario_spec Math_log 0 (of_Z 100) (Fin (1 # 10))
                (of_Z 60) k H) as S.
  cbv zeta in S.
  change ((of_Z 60 - of_Z 100 * Fin (1 # 10) <=? zero)%num) with false in S.
  cbv iota in S. destruct S as [S _]. split; [exact S|discriminate].
Defined.

Lemma keepEMI_scenario_returns (Math_log : num -> num) fuel balance monthlyRate emi :
  (ceil (Math_log (emi / (emi - balance * monthlyRate))
         / Math_log (one + monthlyRate)) + of_Z 5)%num <> PosInf ->
  exists k, keepEMI_scenario Math_log fuel balance monthlyRate emi = Some k.
Proof.
  intros Hcap. unfold keepEMI_scenario.
  destruct (emi - balance * monthlyRate <=? zero)%num; [eauto|].
  destruct (amortizeUntilPaid_returns fuel balance monthlyRate emi _ Hcap)
    as [[sched|message] ->]; eauto.
Qed.

(** C4 as stated fails: on a balance of 50 at 1% a month with an EMI of 1,
    [emi - balance * r = 0.5 > 0], yet the first month's interest rounds to 1,
    [amortizeUntilPaid] fails, and the scenario comes back, also in the
    handler's response, with the closed-form 70 months, an empty schedule,
    zero interest and the error attached. *)
Lemma keepEMI_error_not_as_specified :
  (of_Z 1 - of_Z 50 * Fin (1 # 100) <=? zero)%num = false
  /\ amortizeUntilPaid 0 (of_Z 50) (Fin (1 # 100)) (of_Z 1) (of_Z 75)
     = Some (Throw EMI_TOO_SMALL)
  /\ keepEMI_scenario Math_log 0 (of_Z 50) (Fin (1 # 100)) (of_Z 1)
     = Some (mkKeep (of_Z 70) [] zero (Some EMI_TOO_SMALL))
  /\ (keepEMI <$> response_body (reschedule Math_log 0 half_unit_interest))
     = Some (mkKeep (of_Z 70) [] zero (Some EMI_TOO_SMALL))
  /\ ~ keepEMI_as_specified Math_log 0 (of_Z 50) (Fin (1 # 100)) (of_Z 1)
         (mkKeep (of_Z 70) [] zero (Some EMI_TOO_SMALL)).
Proof.
  repeat split; try (vm_compute; reflexivity).
  intros H. vm_compute in H. destruct H as (_ & H & _). discriminate.
Qed.

(** ** Failure of one scenario (section 7) *)

(** A failure of scenario B's schedule generation is the failure of the
    request, whatever scenario A produced. *)
Lemma reduceEMI_throw_fails_request (Math_log : num -> num) fuel req
    outstanding message :
  let monthlyRate := (annualRate req / of_Z 100 / of_Z 12)%num in
  let simulated :=
    apply_prepayments monthlyRate (req_emi req) (paidEmis req)
      (prepayments req) outstanding in
  starting_outstanding req monthlyRate = inr outstanding ->
  is_Some (keepEMI_scenario Math_log fuel simulated.1.1 monthlyRate (req_emi req)) ->
  reduceEMI_scenario fuel simulated.1.1 monthlyRate (totalTenure req) simulated.2
    = Some (Throw message) ->
  reschedule Math_log fuel req = Some (Status500 message).
Proof.
  intros monthlyRate simulated Hs [k Hk] Hr. unfold reschedule.
  fold monthlyRate. rewrite Hs. fold simulated.
  destruct simulated as [[o l] t]. simpl in *. now rewrite Hk, Hr.
Qed.

(** C5 fails on the code — a loan of 150 at 1% a month over 120 months: with an
    EMI of 10 scenario A produces its 17-month schedule without error, but
    scenario B's new EMI of 2 equals the first month's rounded interest,
    [amortizeUntilPaid] fails outside any [try], and the request ends in a 500
    that carries neither scenario; with an EMI of 2 scenario A fails too, its
    error is caught, and the request still ends in the 500 of scenario B. *)
Theorem scenario_B_failure_fails_request :
  (keep_error <$> keepEMI_scenario Math_log 0 (of_Z 150) (Fin (1 # 100)) (of_Z 10))
    = Some None
  /\ computeEMI (of_Z 150) (Fin (1 # 100)) 120 = of_Z 2
  /\ reduceEMI_scenario 0 (of_Z 150) (Fin (1 # 100)) 120 0
     = Some (Throw EMI_TOO_SMALL)
  /\ reschedule Math_log 0 tiny_loan = Some (Status500 EMI_TOO_SMALL)
  /\ (keep_error <$> keepEMI_scenario Math_log 0 (of_Z 150) (Fin (1 # 100)) (of_Z 2))
     = Some (Some EMI_TOO_SMALL)
  /\ reschedule Math_log 0 tiny_loan_low_emi = Some (Status500 EMI_TOO_SMALL).
Proof. vm_compute. repeat split. Qed.

(** ** The target EMI (section 4.3) *)


(** ** Integer currency values *)

Lemma month_interest_integer (r b : Q) :
  exists zi, month_interest (Fin r) (Fin b) = of_Z zi.
Proof. eexists. reflexivity. Qed.

Lemma amortizes_integrality (r e : Q) (maxMonths : num) :
  forall balance count res,
    amortizes (Fin r) (Fin e) maxMonths balance count res ->
    forall b rows, balance = Fin b -> res = Normal rows ->
      Forall (fun row => is_integer (interest row) /\ is_integer (remaining row))
        rows
      /\ (is_integer (Fin b) -> is_integer (Fin e) ->
          Forall (fun row => is_integer (principal row)
                             /\ is_integer (emi_paid row)) rows).
Proof.
  induction 1 as [B c G|B c G P|B c rest G P H IH]; intros b rows -> E.
  - injection E as <-. split; intros; constructor.
  - discriminate.
  - destruct rest as [rows'|]; [|discriminate]. injection E as <-.
    pose proof G as G'. apply andb_true_iff in G' as [Gb _].
    destruct (month_finite r e b Gb P) as (p & b' & Hp & Hb' & Hpos & _).
    specialize (IH (inject_Z b') rows' Hb' eq_refl) as [IH1 IH2].
    split.
    + constructor; [|exact IH1]. split.
      * apply round_is_integer.
      * simpl. rewrite Hb'. rewrite max_of_Z_zero by assumption. now exists b'.
    + intros [zb Hzb] [ze Hze].
      constructor; [|apply IH2; [now exists b'|now exists ze]].
      destruct (month_interest_integer r b) as [zi Hzi].
      assert (Hprin : is_integer (month_principal (Fin r) (Fin e) (Fin b))).
      { unfold month_principal. rewrite Hzi, Hze, sub_of_Z.
        destruct (of_Z (ze - zi) >? Fin b)%num; [now exists zb|now eexists]. }
      split; [exact Hprin|].
      destruct Hprin as [zp Hzp]. cbn [emi_paid month_row].
      rewrite Hzi, Hzp, add_of_Z. now eexists.
Qed.




(** ** Scenario B: keep the tenure (section 4.6) *)

Lemma reduceEMI_scenario_spec fuel balance monthlyRate totalTenure monthsDone red :
  reduceEMI_scenario fuel balance monthlyRate totalTenure monthsDone
    = Some (Normal red) ->
  let remainingMonths := totalTenure - monthsDone in
  if remainingMonths <=? 0 then red = mkReduce zero [] zero
  else
    exists sched,
      amortizeUntilPaid fuel balance monthlyRate
        (computeEMI balance monthlyRate remainingMonths)
        (of_Z (remainingMonths + 5)) = Some (Normal sched)
      /\ newEmi red = computeEMI balance monthlyRate remainingMonths
      /\ remainingSchedule red = take (Z.to_nat remainingMonths) sched
      /\ Z.of_nat (length (remainingSchedule red)) <= remainingMonths
      /\ reduce_totalInterest red = sum_interest (remainingSchedule red).
Proof.
  unfold reduceEMI_scenario. intros H. cbv zeta in *.
  destruct (Z.gtb_spec (totalTenure - monthsDone) 0);
    destruct (Z.leb_spec (totalTenure - monthsDone) 0); try lia.
  - destruct (amortizeUntilPaid fuel balance monthlyRate
                (computeEMI balance monthlyRate (totalTenure - monthsDone))
                (of_Z (totalTenure - monthsDone + 5)))
      as [[sched|message]|]; try discriminate.
    exists sched. split; [reflexivity|].
    assert (Ht : (if Z.of_nat (length sched) >? totalTenure - monthsDone
                  then take (Z.to_nat (totalTenure - monthsDone)) sched
                  else sched)
                 = take (Z.to_nat (totalTenure - monthsDone)) sched).
    { destruct (Z.gtb_spec (Z.of_nat (length sched)) (totalTenure - monthsDone));
        [reflexivity|].
      symmetry. apply take_ge. lia. }
    rewrite Ht in H.
    assert (Hred : red
                   = mkReduce
                       (computeEMI balance monthlyRate (totalTenure - monthsDone))
                       (take (Z.to_nat (totalTenure - monthsDone)) sched)
                       (sum_interest
                          (take (Z.to_nat (totalTenure - monthsDone)) sched)))
      by congruence.
    subst red.
    cbn [newEmi remainingSchedule reduce_totalInterest].
    repeat split. rewrite length_take. lia.
  - congruence.
Qed.

(** Scenario B always comes back: its cap is finite. *)
Lemma reduceEMI_scenario_returns fuel balance monthlyRate totalTenure monthsDone :
  exists res,
    reduceEMI_scenario fuel balance monthlyRate totalTenure monthsDone = Some res.
Proof.
  unfold reduceEMI_scenario. destruct (totalTenure - monthsDone >? 0); [|eauto].
  destruct (amortizeUntilPaid_returns fuel balance monthlyRate
              (computeEMI balance monthlyRate (totalTenure - monthsDone))
              (of_Z (totalTenure - monthsDone + 5)))
    as [[sched|message] ->]; [discriminate| |]; eauto.
Qed.

Lemma starting_outstanding_not_ok req monthlyRate body :
  starting_outstanding req monthlyRate <> inl (Ok body).
Proof.
  unfold starting_outstanding, row_outstanding.
  repeat case_match; congruence.
Qed.

(** C7 — in a successful response, with [remainingMonths = totalTenure −
    max(paidEmis, latest prepayment month)]: when [remainingMonths <= 0]
    scenario B is a zero EMI, an empty schedule and zero interest; otherwise
    its EMI is [computeEMI] of the post-prepayment balance over
    [remainingMonths], its schedule is the one [amortizeUntilPaid] returns
    under the cap [remainingMonths + 5], cut to at most [remainingMonths]
    rows, and its interest is the sum over the rows returned. *)
Theorem reduceEMI_in_response (Math_log : num -> num) (fuel : nat)
    (req : Request) (body : Body) :
  reschedule Math_log fuel req = Some (Ok body) ->
  reduceEMI_as_specified fuel req body.
Proof.
  unfold reschedule, reduceEMI_as_specified. intros H. cbv zeta in *.
  destruct (starting_outstanding req (annualRate req / of_Z 100 / of_Z 12))
    as [response|outstanding] eqn:S.
  { apply (inj Some) in H. subst response.
    now apply starting_outstanding_not_ok in S. }
  unfold apply_prepayments in H.
  destruct (retroactive_prepay _ _ _) as [balance simLog] in H.
  destruct (keepEMI_scenario Math_log fuel balance _ _) as [keep|] in H;
    [|discriminate].
  destruct (reduceEMI_scenario fuel balance _ _ _) as [[red|message]|] eqn:E in H;
    try discriminate.
  apply (inj Some) in H. injection H as <-. cbn [outstandingAfterPrepayments reduceEMI].
  rewrite (Z.max_comm (paidEmis req)).
  exact (reduceEMI_scenario_spec _ _ _ _ _ _ E).
Qed.

Lemma reduceEMI_in_response_witness :
  reschedule Math_log 0 short_loan = Some (Ok short_loan_body)
  /\ reduceEMI_as_specified 0 short_loan short_loan_body.
Proof.
  assert (H : reschedule Math_log 0 short_loan = Some (Ok short_loan_body))
    by (vm_compute; reflexivity).
  split; [exact H|].
  exact (reduceEMI_in_response Math_log 0 short_loan short_loan_body H).
Defined.

(** ** Prepayments at month 0 (section 4.4) *)

Lemma merge_month_zero prepayMap amount :
  merge_prepayment prepayMap (mkPrepay (Some 0) amount) = prepayMap.
Proof. reflexivity. Qed.

Lemma merge_keeps_zero_free (ps : list Prepayment) :
  forall prepayMap : gmap Z num,
    prepayMap !! 0 = None -> foldl merge_prepayment prepayMap ps !! 0 = None.
Proof.
  induction ps as [|p ps IH]; intros prepayMap H; [exact H|].
  simpl. apply IH. unfold merge_prepayment.
  destruct (pp_month p) as [mm|]; [|exact H].
  destruct (mm =? 0) eqn:E; [exact H|].
  destruct (pp_amount p <=? zero)%num; [exact H|].
  simpl. apply Z.eqb_neq in E. now rewrite lookup_insert_ne.
Qed.

(** C10 — a prepayment whose month coerces to 0 is dropped by the merge,
    whatever its amount: the merged map is that of the list without it and has
    no entry at month 0, so no prepayment test fires there, and the response
    is that of the request without the entry. *)
Theorem month_zero_prepayment_discarded (Math_log : num -> num) (fuel : nat)
    (req : Request) (ps1 ps2 : list Prepayment) (amount : num) :
  build_prepayMap (ps1 ++ mkPrepay (Some 0) amount :: ps2)
    = build_prepayMap (ps1 ++ ps2)
  /\ build_prepayMap (ps1 ++ mkPrepay (Some 0) amount :: ps2) !! 0 = None
  /\ scheduled (build_prepayMap (ps1 ++ mkPrepay (Some 0) amount :: ps2)) 0 = None
  /\ reschedule Math_log fuel
       (with_prepayments req (ps1 ++ mkPrepay (Some 0) amount :: ps2))
     = reschedule Math_log fuel (with_prepayments req (ps1 ++ ps2)).
Proof.
  assert (Hmap : build_prepayMap (ps1 ++ mkPrepay (Some 0) amount :: ps2)
                 = build_prepayMap (ps1 ++ ps2)).
  { unfold build_prepayMap. rewrite !foldl_app. reflexivity. }
  assert (Hzero : build_prepayMap (ps1 ++ mkPrepay (Some 0) amount :: ps2) !! 0
                  = None)
    by (apply merge_keeps_zero_free, lookup_empty).
  repeat split; try assumption.
  - unfold scheduled. now rewrite Hzero.
  - unfold reschedule, with_prepayments, apply_prepayments.
    cbn [annualRate req_emi paidEmis prepayments totalTenure].
    rewrite Hmap. reflexivity.
Qed.

(** * Further properties of the engine *)

(** ** Shape of a schedule *)

Lemma amortizes_shape monthlyRate emi maxMonths :
  forall balance count res,
    amortizes monthlyRate emi maxMonths balance count res ->
    forall rows, res = Normal rows ->
      month <$> rows = seqZ (count + 1) (Z.of_nat (length rows))
      /\ Forall (fun row => emi_paid row = (interest row + principal row)%num)
           rows.
Proof.
  induction 1 as [b c G|b c G P|b c rest G P H IH]; intros rows E.
  - injection E as <-. split; [reflexivity|constructor].
  - discriminate.
  - destruct rest as [rows'|]; [|discriminate]. injection E as <-.
    destruct (IH rows' eq_refl) as [IHm IHe]. split.
    + cbn [fmap list_fmap length]. rewrite seqZ_cons by lia.
      cbn [month month_row]. f_equal. fold (fmap month rows'). rewrite IHm.
      f_equal; lia.
    + constructor; [reflexivity|exact IHe].
Qed.

(** X1 — the rows of a returned schedule are numbered 1, 2, 3, ... without a
    gap, and in each of them [emi_paid] is the sum of the interest and the
    principal of that row. *)
Theorem schedule_months_and_parts (fuel : nat)
    (balance monthlyRate emi maxMonths : num) (rows : list ScheduleRow) :
  amortizeUntilPaid fuel balance monthlyRate emi maxMonths = Some (Normal rows) ->
  month <$> rows = seqZ 1 (Z.of_nat (length rows))
  /\ Forall (fun row => emi_paid row = (interest row + principal row)%num) rows.
Proof.
  intros H. apply amortizeUntilPaid_amortizes in H.
  exact (amortizes_shape _ _ _ _ _ _ H rows eq_refl).
Qed.

Lemma schedule_months_and_parts_witness :
  let rows := [mkRow 1 (of_Z 60) (of_Z 50) (of_Z 10) (of_Z 50);
               mkRow 2 (of_Z 55) (of_Z 50) (of_Z 5) (of_Z 0)] in
  amortizeUntilPaid 0 (of_Z 100) (Fin (1 # 10)) (of_Z 60) (of_Z 5)
    = Some (Normal rows)
  /\ month <$> rows = seqZ 1 (Z.of_nat (length rows)).
Proof.
  split; [reflexivity|].
  apply (schedule_months_and_parts 0 (of_Z 100) (Fin (1 # 10)) (of_Z 60) (of_Z 5)).
  reflexivity.
Defined.

(** ** One month on finite numbers, in full *)

Lemma month_facts (r e b : Q) :
  (Fin b >? zero)%num = true ->
  (Fin e - month_interest (Fin r) (Fin b) <=? zero)%num = false ->
  exists (i : Z) (d p : Q) (b' : Z),
    month_interest (Fin r) (Fin b) = of_Z i
    /\ i = Qfloor (b * r + (1 # 2))
    /\ (Fin e - of_Z i)%num = Fin d
    /\ (d == e - inject_Z i)%Q /\ (0 < d)%Q
    /\ month_principal (Fin r) (Fin e) (Fin b) = Fin p
    /\ (0 < p)%Q /\ (p <= b)%Q /\ (p <= d)%Q
    /\ ((d <= b)%Q -> p = d)
    /\ ((b < d)%Q -> p = b)
    /\ month_balance (Fin r) (Fin e) (Fin b) = of_Z b'
    /\ b' = Qfloor (b - p + (1 # 2))
    /\ 0 <= b'.
Proof.
  intros Hb Hdue. unfold month_balance, month_principal.
  unfold month_interest in *.
  assert (Hi : round (Fin b * Fin r) = of_Z (Qfloor (b * r + (1 # 2)))).
  { unfold round, mul, of_Z. do 2 f_equal. apply Qfloor_comp.
    now rewrite Qred_correct. }
  rewrite Hi in *. set (i := Qfloor (b * r + (1 # 2))) in *.
  destruct (sub_Fin e (inject_Z i)) as (d & Ed & Hd).
  unfold of_Z in *. rewrite Ed in *.
  apply leb_Fin_false in Hdue. apply ltb_Fin in Hb.
  change (inject_Z 0) with 0%Q in *.
  exists i, d.
  destruct (Fin d >? Fin b)%num eqn:C.
  - apply ltb_Fin in C. exists b.
    destruct (sub_Fin b b) as (d2 & -> & Hd2).
    exists (Qfloor (d2 + (1 # 2))).
    repeat split; try assumption; try lra.
    + apply Qfloor_comp. now rewrite Hd2.
    + apply round_nonneg. lra.
  - apply ltb_Fin_false in C. exists d.
    destruct (sub_Fin b d) as (d2 & -> & Hd2).
    exists (Qfloor (d2 + (1 # 2))).
    repeat split; try assumption; try lra.
    + apply Qfloor_comp. now rewrite Hd2.
    + apply round_nonneg. lra.
Qed.

Lemma round_integer_half (n : Z) (q : Q) :
  (q == inject_Z n)%Q -> Qfloor (q + (1 # 2)) = n.
Proof.
  intros H. rewrite H. unfold Qfloor, Qplus, inject_Z. simpl.
  symmetry. apply Z.div_unique with 1; lia.
Qed.

Lemma amortizes_from_nonpositive monthlyRate emi maxMonths (z count : Z) res :
  z <= 0 ->
  amortizes monthlyRate emi maxMonths (of_Z z) count res -> res = Normal [].
Proof.
  intros Hz H.
  assert (G : (of_Z z >? zero)%num = false).
  { unfold gtb, zero. rewrite ltb_of_Z. apply Z.ltb_ge. lia. }
  inversion H as [b c G'|b c G' P|b c rest G' P H']; subst; try reflexivity;
    rewrite G in G'; discriminate.
Qed.

Lemma of_Z_inj (a b : Z) : of_Z a = of_Z b -> a = b.
Proof. unfold of_Z, inject_Z. congruence. Qed.

(** ** Amounts of a row *)

Lemma amortizes_amounts (r e : Q) (maxMonths : num) :
  forall balance count res,
    amortizes (Fin r) (Fin e) maxMonths balance count res ->
    forall b rows, balance = Fin b -> res = Normal rows ->
      Forall (fun row => (zero <? principal row)%num = true
                         /\ (emi_paid row <=? Fin e)%num = true) rows
      /\ (forall k row, rows !! k = Some row -> (S k < length rows)%nat ->
            cmp (emi_paid row) (Fin e) = Some Eq).
Proof.
  induction 1 as [B c G|B c G P|B c rest G P H IH]; intros b rows -> E.
  - injection E as <-. split; [constructor|]. intros k row Hk. discriminate.
  - discriminate.
  - destruct rest as [rows'|]; [|discriminate]. injection E as <-.
    pose proof G as G'. apply andb_true_iff in G' as [Gb _].
    destruct (month_facts r e b Gb P)
      as (i & d & p & b' & Hi & _ & Hd & Hdv & Hd0 & Hp & Hp0 & Hpb & Hpd
          & Hfull & Hclip & Hb' & Hb'v & Hb'0).
    specialize (IH (inject_Z b') rows' Hb' eq_refl) as [IH1 IH2].
    assert (Hep : emi_paid (month_row (Fin r) (Fin e) (Fin b) c)
                  = Fin (Qred (inject_Z i + p))).
    { cbn [emi_paid month_row]. now rewrite Hi, Hp. }
    split.
    + constructor; [|exact IH1]. split.
      * cbn [principal month_row]. rewrite Hp. now apply ltb_Fin.
      * rewrite Hep. apply leb_Fin. rewrite Qred_correct. lra.
    + intros [|k] row Hk Hlen.
      * injection Hk as <-. rewrite Hep.
        destruct (Qlt_le_dec b d) as [Hbd|Hdb].
        -- exfalso. rewrite (Hclip Hbd) in Hb'v.
           assert (Hz : b' = 0)
             by (rewrite Hb'v; apply round_integer_half; change (inject_Z 0) with 0%Q; lra).
           rewrite Hb', Hz in H. apply amortizes_from_nonpositive in H; [|lia].
           injection H as ->. simpl in Hlen. lia.
        -- rewrite (Hfull Hdb). unfold cmp.
           f_equal. apply Qeq_alt. rewrite Qred_correct. lra.
      * apply (IH2 k row Hk). simpl in Hlen. lia.
Qed.

(** ** One month on integers *)

Lemma month_facts_integer (r : Q) (E z : Z) :
  (of_Z z >? zero)%num = true ->
  (of_Z E - month_interest (Fin r) (of_Z z) <=? zero)%num = false ->
  exists i pz : Z,
    month_interest (Fin r) (of_Z z) = of_Z i
    /\ i = Qfloor (inject_Z z * r + (1 # 2))
    /\ month_principal (Fin r) (of_Z E) (of_Z z) = of_Z pz
    /\ 1 <= pz <= z /\ pz <= E - i /\ (pz = z \/ pz = E - i)
    /\ month_balance (Fin r) (of_Z E) (of_Z z) = of_Z (z - pz).
Proof.
  intros Gb P.
  destruct (month_facts r (inject_Z E) (inject_Z z) Gb P)
    as (i & d & p & b' & Hi & Hiv & Hd & _ & Hd0 & Hp & Hp0 & Hpb & Hpd
        & Hfull & Hclip & Hb' & Hb'v & _).
  change (Fin (inject_Z E)) with (of_Z E) in *.
  change (Fin (inject_Z z)) with (of_Z z) in *.
  rewrite sub_of_Z in Hd. injection Hd as <-.
  assert (Hz : 0 < z).
  { unfold gtb, zero in Gb. rewrite ltb_of_Z in Gb. now apply Z.ltb_lt. }
  assert (Hdi : 0 < E - i) by (rewrite Zlt_Qlt; exact Hd0).
  exists i.
  destruct (Qlt_le_dec (inject_Z z) (inject_Z (E - i))) as [C|C].
  - exists z. rewrite (Hclip C) in *. rewrite <- Zlt_Qlt in C.
    repeat split; try assumption; try lia.
    rewrite Hb', Hb'v. f_equal. rewrite Z.sub_diag.
    apply round_integer_half. change (inject_Z 0) with 0%Q. lra.
  - exists (E - i). rewrite (Hfull C) in *. rewrite <- Zle_Qle in C.
    repeat split; try assumption; try lia.
    rewrite Hb', Hb'v. f_equal. apply round_integer_half.
    unfold Z.sub. repeat (rewrite inject_Z_plus || rewrite inject_Z_opp). lra.
Qed.

(** ** Conservation of the principal *)

Lemma final_remaining_cons balance row rows :
  final_remaining balance (row :: rows) = final_remaining (remaining row) rows.
Proof.
  unfold final_remaining. destruct rows as [|r2 rows]; [reflexivity|].
  rewrite last_cons_cons.
  destruct (last (r2 :: rows)) eqn:E; [reflexivity|].
  apply last_None in E. discriminate.
Qed.

Lemma amortizes_conservation (r : Q) (E : Z) (maxMonths : num) :
  forall balance count res,
    amortizes (Fin r) (of_Z E) maxMonths balance count res ->
    forall z rows a, balance = of_Z z -> res = Normal rows ->
      (foldl (fun s row => s + principal row) (of_Z a) rows
       + final_remaining (of_Z z) rows)%num = of_Z (a + z).
Proof.
  induction 1 as [B c G|B c G P|B c rest G P H IH]; intros z rows a -> E'.
  - injection E' as <-. apply add_of_Z.
  - discriminate.
  - destruct rest as [rows'|]; [|discriminate]. injection E' as <-.
    pose proof G as G'. apply andb_true_iff in G' as [Gb _].
    destruct (month_facts_integer r E z Gb P)
      as (i & pz & Hi & _ & Hp & Hpz & _ & _ & Hb').
    rewrite final_remaining_cons. cbn [foldl principal remaining month_row].
    rewrite Hp, Hb', add_of_Z, max_of_Z_zero by lia.
    rewrite (IH (z - pz) rows' (a + pz) Hb' eq_refl). f_equal. lia.
Qed.

(** ** Failure is decided in the first month *)

Lemma month_interest_monotone (r : Q) (z1 z2 i1 i2 : Z) :
  (0 <= r)%Q -> z1 <= z2 ->
  month_interest (Fin r) (of_Z z1) = of_Z i1 ->
  month_interest (Fin r) (of_Z z2) = of_Z i2 -> i1 <= i2.
Proof.
  intros Hr Hz H1 H2.
  change (month_interest (Fin r) (of_Z z1))
    with (of_Z (Qfloor (Qred (inject_Z z1 * r) + (1 # 2)))) in H1.
  change (month_interest (Fin r) (of_Z z2))
    with (of_Z (Qfloor (Qred (inject_Z z2 * r) + (1 # 2)))) in H2.
  apply of_Z_inj in H1, H2. subst i1 i2.
  apply Qfloor_resp_le. rewrite !Qred_correct.
  apply Qplus_le_l, Qmult_le_compat_r; [|exact Hr].
  now rewrite <- Zle_Qle.
Qed.

Lemma amortizes_no_later_failure (r e : Q) (maxMonths : num) (B : Z) :
  (0 <= r)%Q ->
  (Fin e - month_interest (Fin r) (of_Z B) <=? zero)%num = false ->
  forall balance count res,
    amortizes (Fin r) (Fin e) maxMonths balance count res ->
    forall z, balance = of_Z z -> z <= B -> exists rows, res = Normal rows.
Proof.
  intros Hr HB. induction 1 as [b c G|b c G P|b c rest G P H IH]; intros z -> Hz.
  - eauto.
  - exfalso.
    destruct (month_interest_integer r (inject_Z z)) as [i1 H1].
    destruct (month_interest_integer r (inject_Z B)) as [i2 H2].
    fold (of_Z z) in H1. fold (of_Z B) in H2.
    pose proof (month_interest_monotone r z B i1 i2 Hr Hz H1 H2) as Hi.
    rewrite H1 in P. rewrite H2 in HB.
    destruct (sub_Fin e (inject_Z i1)) as (d1 & E1 & V1).
    destruct (sub_Fin e (inject_Z i2)) as (d2 & E2 & V2).
    unfold of_Z in P, HB. rewrite E1 in P. rewrite E2 in HB.
    apply leb_Fin in P. apply leb_Fin_false in HB.
    rewrite Zle_Qle in Hi. change (inject_Z 0) with 0%Q in *. lra.
  - pose proof G as G'. apply andb_true_iff in G' as [Gb _].
    destruct (month_finite r e (inject_Z z) Gb P) as (p & b' & _ & Hb' & _ & Hle).
    destruct (IH b' Hb') as [rows' ->]; [specialize (Hle z eq_refl); lia|].
    simpl. eauto.
Qed.

(** ** Payoff of an integer loan *)

Lemma amortizes_payoff (r : Q) (E cap B i0 : Z) :
  (0 <= r)%Q ->
  month_interest (Fin r) (of_Z B) = of_Z i0 ->
  0 < E - i0 ->
  forall balance count res,
    amortizes (Fin r) (of_Z E) (of_Z cap) balance count res ->
    forall z rows, balance = of_Z z -> res = Normal rows -> 0 <= z <= B ->
      Z.of_nat (length rows) * (E - i0) < z + (E - i0)
      /\ (z <= (cap - count) * (E - i0) ->
          final_remaining (of_Z z) rows = zero).
Proof.
  intros Hr Hi0 Hp0.
  induction 1 as [b c G|b c G P|b c rest G P H IH]; intros z rows -> E' Hz.
  - injection E' as <-. split; [simpl; lia|]. intros Hc.
    unfold final_remaining. simpl. unfold zero. f_equal.
    apply andb_false_iff in G as [G|G].
    + unfold gtb, zero in G. rewrite ltb_of_Z in G. apply Z.ltb_ge in G. lia.
    + rewrite ltb_of_Z in G. apply Z.ltb_ge in G. nia.
  - discriminate.
  - destruct rest as [rows'|]; [|discriminate]. injection E' as <-.
    pose proof G as G'. apply andb_true_iff in G' as [Gb _].
    destruct (month_facts_integer r E z Gb P)
      as (i & pz & Hi & _ & _ & Hpz & _ & Hcase & Hb').
    assert (Hii : i <= i0)
      by (apply (month_interest_monotone r z B i i0 Hr); [lia|assumption..]).
    rewrite final_remaining_cons. cbn [remaining month_row].
    rewrite Hb', max_of_Z_zero by lia.
    destruct Hcase as [->| ->].
    + rewrite Z.sub_diag in *. rewrite Hb' in H.
      apply amortizes_from_nonpositive in H; [|lia]. injection H as ->.
      split; [simpl; lia|reflexivity].
    + destruct (IH (z - (E - i)) rows' Hb' eq_refl) as [IHl IHf]; [lia|].
      split; [simpl length; nia|]. intros Hc. apply IHf. nia.
Qed.





(** X4 — on an integer starting balance and a rate that is not negative,
    [amortizeUntilPaid] fails exactly when its first iteration runs and finds
    the principal not positive: the interest never grows from a month to the
    next, so no later month can fail. *)
Theorem failure_only_in_first_month (fuel : nat) (monthlyRate emi : Q)
    (balance : Z) (maxMonths : num) (res : completion (list ScheduleRow)) :
  (0 <= monthlyRate)%Q ->
  amortizeUntilPaid fuel (of_Z balance) (Fin monthlyRate) (Fin emi) maxMonths
    = Some res ->
  res = Throw EMI_TOO_SMALL
  <-> (of_Z balance >? zero)%num && (of_Z 0 <? maxMonths)%num = true
      /\ (Fin emi - month_interest (Fin monthlyRate) (of_Z balance) <=? zero)%num
         = true.
Proof.
  intros Hr H. apply amortizeUntilPaid_amortizes in H.
  inversion H as [b c G|b c G P|b c rest G P H']; subst.
  - split; [discriminate|]. intros [G' _]. congruence.
  - split; [now split|reflexivity].
  - pose proof G as G'. apply andb_true_iff in G' as [Gb _].
    destruct (month_finite monthlyRate emi (inject_Z balance) Gb P)
      as (p & b' & _ & Hb' & _ & Hle).
    destruct (amortizes_no_later_failure monthlyRate emi maxMonths balance Hr P
                _ _ _ H' b' Hb') as [rows' ->];
      [specialize (Hle balance eq_refl); lia|].
    split; [discriminate|]. intros [_ P']. congruence.
Qed.

Lemma failure_only_in_first_month_witness :
  (0 <= 1 # 100)%Q
  /\ amortizeUntilPaid 0 (of_Z 50) (Fin (1 # 100)) (Fin 1) (of_Z 75)
     = Some (Throw EMI_TOO_SMALL)
  /\ (of_Z 50 >? zero)%num && (of_Z 0 <? of_Z 75)%num = true
  /\ (Fin 1 - month_interest (Fin (1 # 100)) (of_Z 50) <=? zero)%num = true.
Proof.
  assert (Hr : (0 <= 1 # 100)%Q) by discriminate.
  assert (H : amortizeUntilPaid 0 (of_Z 50) (Fin (1 # 100)) (Fin 1) (of_Z 75)
              = Some (Throw EMI_TOO_SMALL)) by reflexivity.
  split; [exact Hr|]. split; [exact H|].
  now apply (failure_only_in_first_month 0 (1 # 100) 1 50 (of_Z 75) _ Hr H).
Defined.



(** ** The cap only cuts a schedule *)

Lemma amortizes_truncate monthlyRate emi (c1 c2 : Z) :
  c1 <= c2 ->
  forall balance count res,
    amortizes monthlyRate emi (of_Z c2) balance count res ->
    forall rows, res = Normal rows ->
      amortizes monthlyRate emi (of_Z c1) balance count
        (Normal (take (Z.to_nat (c1 - count)) rows)).
Proof.
  intros Hc. induction 1 as [b c G|b c G P|b c rest G P H IH]; intros rows E.
  - injection E as <-. rewrite take_nil. apply amortizes_stop.
    apply andb_false_iff in G as [G|G]; [now rewrite G|].
    rewrite ltb_of_Z in *. apply Z.ltb_ge in G.
    rewrite andb_false_iff. right. apply Z.ltb_ge. lia.
  - discriminate.
  - destruct rest as [rows'|]; [|discriminate]. injection E as <-.
    apply andb_true_iff in G as [Gb Gc].
    destruct (Z.ltb_spec c c1) as [Hlt|Hge].
    + replace (Z.to_nat (c1 - c)) with (S (Z.to_nat (c1 - (c + 1)))) by lia.
      cbn [take].
      apply (amortizes_month monthlyRate emi (of_Z c1) b c
               (Normal (take (Z.to_nat (c1 - (c + 1))) rows'))).
      * rewrite Gb, ltb_of_Z. simpl. now apply Z.ltb_lt.
      * exact P.
      * now apply IH.
    + replace (Z.to_nat (c1 - c)) with O by lia. cbn [take].
      apply amortizes_stop. rewrite ltb_of_Z, andb_false_iff. right.
      now apply Z.ltb_ge.
Qed.

Lemma amortizeUntilPaid_truncate (fuel : nat) (balance monthlyRate emi : num)
    (c1 c2 : Z) (rows : list ScheduleRow) :
  c1 <= c2 ->
  amortizeUntilPaid fuel balance monthlyRate emi (of_Z c2) = Some (Normal rows) ->
  amortizeUntilPaid fuel balance monthlyRate emi (of_Z c1)
    = Some (Normal (take (Z.to_nat c1) rows)).
Proof.
  intros Hc H. apply amortizeUntilPaid_amortizes in H.
  pose proof (amortizes_truncate monthlyRate emi c1 c2 Hc _ _ _ H rows eq_refl)
    as H1.
  rewrite Z.sub_0_r in H1.
  destruct (amortizeUntilPaid_returns fuel balance monthlyRate emi (of_Z c1))
    as [res Hres]; [discriminate|].
  rewrite Hres. f_equal. apply amortizeUntilPaid_amortizes in Hres.
  exact (amortizes_functional _ _ _ _ _ _ _ Hres H1).
Qed.

(** X6 — lowering the cap only cuts the schedule: if [amortizeUntilPaid]
    returns a schedule under a cap, then under any smaller cap [c] it returns
    the first [c] rows of that schedule. *)
Theorem smaller_cap_truncates (fuel : nat) (balance monthlyRate emi : num)
    (c1 c2 : Z) (rows : list ScheduleRow) :
  c1 <= c2 ->
  amortizeUntilPaid fuel balance monthlyRate emi (of_Z c2) = Some (Normal rows) ->
  amortizeUntilPaid fuel balance monthlyRate emi (of_Z c1)
    = Some (Normal (take (Z.to_nat c1) rows)).
Proof. apply amortizeUntilPaid_truncate. Qed.

Lemma smaller_cap_truncates_witness :
  1 <= 5
  /\ amortizeUntilPaid 0 (of_Z 100) (Fin (1 # 10)) (of_Z 60) (of_Z 1)
     = Some (Normal
               (take (Z.to_nat 1)
                  [mkRow 1 (of_Z 60) (of_Z 50) (of_Z 10) (of_Z 50);
                   mkRow 2 (of_Z 55) (of_Z 50) (of_Z 5) (of_Z 0)])).
Proof.
  split; [lia|].
  apply (smaller_cap_truncates 0 (of_Z 100) (Fin (1 # 10)) (of_Z 60) 1 5);
    [lia|reflexivity].
Defined.

(** X7 — the five months added to the cap of scenario B never show: the
    schedule the scenario returns is the one [amortizeUntilPaid] produces for
    the new EMI under the cap [remainingOfficial] itself. *)
Theorem reduceEMI_schedule_is_capped_run (fuel : nat)
    (balance monthlyRate : num) (totalTenure monthsDone : Z) (red : ReduceEMI) :
  0 < totalTenure - monthsDone ->
  reduceEMI_scenario fuel balance monthlyRate totalTenure monthsDone
    = Some (Normal red) ->
  amortizeUntilPaid fuel balance monthlyRate (newEmi red)
    (of_Z (totalTenure - monthsDone))
  = Some (Normal (remainingSchedule red)).
Proof.
  intros Hrem H. apply reduceEMI_scenario_spec in H. cbv zeta in H.
  replace (totalTenure - monthsDone <=? 0) with false in H
    by (symmetry; apply Z.leb_gt; exact Hrem).
  destruct H as (sched & Hs & -> & -> & _).
  apply (amortizeUntilPaid_truncate fuel balance monthlyRate _
           (totalTenure - monthsDone) (totalTenure - monthsDone + 5) sched);
    [lia|exact Hs].
Qed.

Lemma reduceEMI_schedule_is_capped_run_witness :
  0 < 2 - 0
  /\ reduceEMI_scenario 0 (of_Z 100) (Fin (1 # 10)) 2 0
     = Some (Normal (reduceEMI short_loan_body))
  /\ amortizeUntilPaid 0 (of_Z 100) (Fin (1 # 10)) (of_Z 58) (of_Z (2 - 0))
     = Some (Normal (remainingSchedule (reduceEMI short_loan_body))).
Proof.
  assert (H : reduceEMI_scenario 0 (of_Z 100) (Fin (1 # 10)) 2 0
              = Some (Normal (reduceEMI short_loan_body)))
    by (vm_compute; reflexivity).
  split; [lia|]. split; [exact H|].
  apply (reduceEMI_schedule_is_capped_run 0 (of_Z 100) (Fin (1 # 10)) 2 0
           (reduceEMI short_loan_body)); [lia|exact H].
Defined.

(** ** Paid EMIs against the schedule *)

Lemma pay_emis_step monthlyRate emi n outstanding :
  pay_emis monthlyRate emi (S n) outstanding
  = pay_emis monthlyRate emi n (month_balance monthlyRate emi outstanding).
Proof. reflexivity. Qed.

Lemma amortizes_pay_emis (r e : Q) (maxMonths : num) :
  forall balance count res,
    amortizes (Fin r) (Fin e) maxMonths balance count res ->
    forall b rows k row, balance = Fin b -> res = Normal rows ->
      rows !! k = Some row ->
      pay_emis (Fin r) (Fin e) (S k) (Fin b) = remaining row.
Proof.
  induction 1 as [B c G|B c G P|B c rest G P H IH]; intros b rows k row -> E Hk.
  - injection E as <-. discriminate.
  - discriminate.
  - destruct rest as [rows'|]; [|discriminate]. injection E as <-.
    pose proof G as G'. apply andb_true_iff in G' as [Gb _].
    destruct (month_finite r e b Gb P) as (p & b' & _ & Hb' & Hpos & _).
    rewrite pay_emis_step, Hb'. destruct k as [|k].
    + injection Hk as <-. cbn [pay_emis remaining month_row].
      rewrite Hb'. symmetry. now apply max_of_Z_zero.
    + exact (IH (inject_Z b') rows' k row Hb' eq_refl Hk).
Qed.

(** X8 — without an official schedule the starting balance of a request with
    [paidEmis >= 1] is the [remaining] of row [paidEmis] of the schedule that
    [amortizeUntilPaid] gives for the principal, whenever that schedule has
    such a row. *)
Theorem starting_outstanding_is_schedule_row (fuel : nat) (req : Request)
    (principal0 monthlyRate emi : Q) (maxMonths : num)
    (rows : list ScheduleRow) (row : ScheduleRow) :
  officialSchedule req = None ->
  req_principal req = Some (Fin principal0) ->
  req_emi req = Fin emi ->
  0 < paidEmis req ->
  amortizeUntilPaid fuel (Fin principal0) (Fin monthlyRate) (Fin emi) maxMonths
    = Some (Normal rows) ->
  rows !! Z.to_nat (paidEmis req - 1) = Some row ->
  starting_outstanding req (Fin monthlyRate) = inr (remaining row).
Proof.
  intros Hoff Hp He Hk H Hrow. unfold starting_outstanding.
  rewrite Hoff, Hp, He. f_equal.
  replace (Z.to_nat (paidEmis req)) with (S (Z.to_nat (paidEmis req - 1))) by lia.
  apply amortizeUntilPaid_amortizes in H.
  exact (amortizes_pay_emis _ _ _ _ _ _ H principal0 rows _ row eq_refl eq_refl Hrow).
Qed.

Lemma starting_outstanding_is_schedule_row_witness :
  starting_outstanding two_prepayments (Fin (1 # 100))
  = inr (remaining (mkRow 1 (of_Z 2000) (of_Z 1000) (of_Z 1000) (of_Z 99000))).
Proof.
  apply (starting_outstanding_is_schedule_row 0 two_prepayments 100000 (1 # 100)
           2000 (of_Z 1)
           [mkRow 1 (of_Z 2000) (of_Z 1000) (of_Z 1000) (of_Z 99000)]);
    try reflexivity.
Defined.

(** ** The target EMI on finite numbers *)

Lemma computeEMI_finite (b r : Q) (months : Z) :
  0 < months -> ~ ((1 + r) ^ months == 1)%Q ->
  computeEMI (Fin b) (Fin r) months = of_Z (annuity b r months).
Proof.
  intros H Hne. unfold computeEMI.
  replace (months <=? 0) with false by (symmetry; apply Z.leb_gt; lia).
  unfold pow.
  replace (months =? 0) with false by (symmetry; apply Z.eqb_neq; lia).
  replace (months <? 0) with false by (symmetry; apply Z.ltb_ge; lia).
  unfold one, of_Z. cbn [add sub opp mul]. rewrite andb_false_r.
  cbn [add sub opp mul div]. rewrite Qeq_bool_false.
  - unfold round, annuity, of_Z. do 2 f_equal. apply Qfloor_comp.
    rewrite !Qred_correct. reflexivity.
  - rewrite !Qred_correct. intros E. apply Hne.
    change (inject_Z 1) with 1%Q in E. lra.
Qed.

Lemma computeEMI_zero_rate (b r : Q) (months : Z) :
  0 < months -> (r == 0)%Q -> computeEMI (Fin b) (Fin r) months = NaN.
Proof.
  intros H Hr. unfold computeEMI.
  replace (months <=? 0) with false by (symmetry; apply Z.leb_gt; lia).
  unfold pow.
  replace (months =? 0) with false by (symmetry; apply Z.eqb_neq; lia).
  replace (months <? 0) with false by (symmetry; apply Z.ltb_ge; lia).
  unfold one, of_Z. cbn [add sub opp mul]. rewrite andb_false_r.
  cbn [add sub opp mul div].
  assert (Hf : (Qred (Qred (inject_Z 1 + r) ^ months) == 1)%Q).
  { rewrite !Qred_correct, Hr. change (inject_Z 1 + 0)%Q with 1%Q.
    apply Qpower_1. }
  assert (Hy : Qeq_bool (Qred (Qred (Qred (inject_Z 1 + r) ^ months)
                               + Qred (- inject_Z 1))) 0 = true).
  { apply Qeq_bool_iff. rewrite Qred_correct, Hf, Qred_correct.
    reflexivity. }
  rewrite Hy.
  assert (Hx : (Qred (Qred (b * r) * Qred (Qred (inject_Z 1 + r) ^ months))
                == 0)%Q).
  { rewrite Qred_correct, Hf, Qred_correct, Hr. ring. }
  apply Qeq_alt in Hx. now rewrite Hx.
Qed.

(** X9 — at a monthly rate of zero [computeEMI] has no value to give: for
    every finite balance and every [months > 0] the quotient is [0/0] and the
    function returns [NaN]. *)
Theorem computeEMI_at_zero_rate_is_NaN (balance monthlyRate : Q) (months : Z) :
  0 < months -> (monthlyRate == 0)%Q ->
  computeEMI (Fin balance) (Fin monthlyRate) months = NaN.
Proof. apply computeEMI_zero_rate. Qed.

Lemma computeEMI_at_zero_rate_is_NaN_witness :
  0 < 12 /\ (0 == 0)%Q /\ computeEMI (Fin 1000) (Fin 0) 12 = NaN.
Proof.
  split; [lia|]. split; [reflexivity|].
  apply (computeEMI_at_zero_rate_is_NaN 1000 0 12); [lia|reflexivity].
Defined.





(** ** A zero rate *)

Lemma month_interest_zero_rate (b r : Q) :
  (r == 0)%Q -> month_interest (Fin r) (Fin b) = zero.
Proof.
  intros Hr. unfold month_interest, round, mul, zero, of_Z. do 2 f_equal.
  apply round_integer_half. rewrite Qred_correct, Hr.
  change (inject_Z 0) with 0%Q. ring.
Qed.

Lemma amortize_NaN_emi (fuel : nat) (b r : Q) (cap : Z) :
  (r == 0)%Q -> (0 < b)%Q -> 0 < cap ->
  amortizeUntilPaid fuel (Fin b) (Fin r) NaN (of_Z cap)
  = Some (Normal [mkRow 1 NaN NaN zero NaN]).
Proof.
  intros Hr Hb Hc. unfold amortizeUntilPaid.
  change (loop_fuel fuel (of_Z cap)) with (Z.to_nat (Qceiling (inject_Z cap))).
  rewrite Qceiling_Z.
  replace (Z.to_nat cap) with (S (Z.to_nat (cap - 1))) by lia.
  rewrite amortize_loop_step.
  assert (G : (Fin b >? zero)%num = true) by (now apply ltb_Fin).
  rewrite G, ltb_of_Z. replace (0 <? cap) with true by (symmetry; now apply Z.ltb_lt).
  cbn [andb]. unfold amortize_step.
  fold (month_interest (Fin r) (Fin b)). rewrite (month_interest_zero_rate b r Hr).
  cbn [sub add opp leb gtb ltb cmp zero of_Z round max].
  now destruct (Z.to_nat (cap - 1)).
Qed.

(** X12 — at a zero rate scenario B of a positive balance with months left
    gives no plan: its new EMI is [NaN], and its schedule is a single row
    whose amounts are [NaN], with zero interest. *)
Theorem reduceEMI_at_zero_rate (fuel : nat) (balance monthlyRate : Q)
    (totalTenure monthsDone : Z) :
  (monthlyRate == 0)%Q -> (0 < balance)%Q -> 0 < totalTenure - monthsDone ->
  reduceEMI_scenario fuel (Fin balance) (Fin monthlyRate) totalTenure monthsDone
  = Some (Normal (mkReduce NaN [mkRow 1 NaN NaN zero NaN] zero)).
Proof.
  intros Hr Hb Hrem. unfold reduceEMI_scenario.
  replace (totalTenure - monthsDone >? 0) with true
    by (symmetry; rewrite Z.gtb_ltb; now apply Z.ltb_lt).
  rewrite (computeEMI_zero_rate balance monthlyRate _ Hrem Hr).
  rewrite (amortize_NaN_emi fuel balance monthlyRate _ Hr Hb) by lia.
  cbn [length].
  replace (Z.of_nat 1 >? totalTenure - monthsDone) with false
    by (symmetry; rewrite Z.gtb_ltb; apply Z.ltb_ge; lia).
  reflexivity.
Qed.

Lemma reduceEMI_at_zero_rate_witness :
  (0 == 0)%Q /\ (0 < 1000)%Q /\ 0 < 12 - 0
  /\ reduceEMI_scenario 0 (Fin 1000) (Fin 0) 12 0
     = Some (Normal (mkReduce NaN [mkRow 1 NaN NaN zero NaN] zero)).
Proof.
  split; [reflexivity|]. split; [reflexivity|]. split; [lia|].
  apply (reduceEMI_at_zero_rate 0 1000 0 12 0); [reflexivity|reflexivity|lia].
Defined.

(** X13 — at a zero rate scenario A gives no plan either: with a positive EMI
    and [Math.log(1) = 0], as ECMAScript requires, the closed form is [0/0],
    [monthsToFinish] is [NaN], the cap is [NaN], and the schedule is empty
    with zero interest and no error. *)
Theorem keepEMI_at_zero_rate (Math_log : num -> num) (fuel : nat)
    (balance monthlyRate emi : Q) :
  Math_log one = zero ->
  (monthlyRate == 0)%Q -> (0 < emi)%Q ->
  keepEMI_scenario Math_log fuel (Fin balance) (Fin monthlyRate) (Fin emi)
  = Some (mkKeep NaN [] zero None).
Proof.
  intros Hlog Hr He. unfold keepEMI_scenario. cbv zeta.
  destruct (sub_Fin emi (Qred (balance * monthlyRate))) as (d & Ed & Hd).
  change (Fin balance * Fin monthlyRate)%num
    with (Fin (Qred (balance * monthlyRate))).
  rewrite Ed.
  assert (Hde : (d == emi)%Q) by (rewrite Hd, Qred_correct, Hr; ring).
  replace (Fin d <=? zero)%num with false
    by (symmetry; apply leb_Fin_false; change (inject_Z 0) with 0%Q; lra).
  assert (H1 : (Fin emi / Fin d)%num = one).
  { unfold div. rewrite Qeq_bool_false by lra. unfold one, of_Z. f_equal.
    apply Qred_inject_Z. rewrite Hde. change (inject_Z 1) with 1%Q.
    field. lra. }
  assert (H2 : (one + Fin monthlyRate)%num = one).
  { unfold one, of_Z, add. f_equal. apply Qred_inject_Z. rewrite Hr.
    reflexivity. }
  rewrite H1, H2, Hlog.
  change (ceil (zero / zero) + of_Z 5)%num with NaN.
  unfold amortizeUntilPaid. cbn [loop_fuel amortize_loop].
  change (of_Z 0 <? NaN)%num with false. rewrite andb_false_r. reflexivity.
Qed.

Lemma keepEMI_at_zero_rate_witness :
  Math_log one = zero /\ (0 == 0)%Q /\ (0 < 100)%Q
  /\ keepEMI_scenario Math_log 0 (Fin 1000) (Fin 0) (Fin 100)
     = Some (mkKeep NaN [] zero None).
Proof.
  assert (Hlog : Math_log one = zero) by reflexivity.
  split; [reflexivity|]. split; [reflexivity|]. split; [reflexivity|].
  apply (keepEMI_at_zero_rate Math_log 0 1000 0 100);
    [reflexivity|reflexivity|reflexivity].
Defined.

(** ** The merge of the prepayments *)

Lemma sum_Z_snoc (l : list Z) (a : Z) : sum_Z (l ++ [a]) = sum_Z l + a.
Proof. unfold sum_Z. induction l as [|x l IH]; simpl; lia. Qed.

Lemma sum_Z_positive (l : list Z) :
  Forall (fun a => 0 < a) l -> l <> [] -> 0 < sum_Z l.
Proof.
  unfold sum_Z. induction 1 as [|a l Ha Hl IH]; [congruence|]. intros _.
  destruct l as [|b l]; simpl in *; [lia|].
  assert (0 < b + foldr Z.add 0 l) by (apply IH; discriminate). lia.
Qed.

Lemma amounts_at_positive (m : Z) (es : list (option Z * Z)) :
  Forall (fun a => 0 < a) (amounts_at m es).
Proof.
  unfold amounts_at. apply Forall_fmap, Forall_forall.
  intros e He. apply list_elem_of_filter in He. simpl. tauto.
Qed.

Lemma amounts_at_snoc (m : Z) (es : list (option Z * Z)) (e : option Z * Z) :
  amounts_at m (es ++ [e])
  = amounts_at m es
    ++ (if decide (e.1 = Some m /\ m <> 0 /\ 0 < e.2) then [e.2] else []).
Proof.
  unfold amounts_at. rewrite filter_app, fmap_app. f_equal.
  rewrite filter_cons, filter_nil. now destruct (decide _).
Qed.

Lemma truthy_of_Z (z : Z) : truthy (of_Z z) = negb (z =? 0).
Proof.
  unfold truthy, of_Z, Qeq_bool, inject_Z. simpl.
  rewrite Z.mul_1_r. now destruct z.
Qed.

Lemma build_prepayMap_lookup (es : list (option Z * Z)) (m : Z) :
  build_prepayMap (int_entry <$> es) !! m
  = if decide (amounts_at m es = []) then None
    else Some (of_Z (sum_Z (amounts_at m es))).
Proof.
  induction es as [|e es IH] using rev_ind; [reflexivity|].
  unfold build_prepayMap in *. rewrite fmap_app, foldl_app, amounts_at_snoc.
  simpl. set (acc := foldl merge_prepayment ∅ (int_entry <$> es)) in *.
  pose proof (amounts_at_positive m es) as Hpos.
  destruct e as [[mm|] a]; unfold merge_prepayment, int_entry; simpl.
  - change (of_Z a <=? zero)%num with (of_Z a <=? of_Z 0)%num.
    rewrite leb_of_Z.
    destruct (decide (Some mm = Some m /\ m <> 0 /\ 0 < a)) as [(E & Hm & Ha)|N].
    + injection E as ->.
      destruct (Z.eqb_spec m 0) as [|_]; [contradiction|].
      destruct (Z.leb_spec a 0) as [|_]; [lia|]. simpl.
      rewrite lookup_insert_eq, IH.
      destruct (decide (amounts_at m es = [])) as [-> | Hne].
      * cbn [or_zero amounts_at sum_Z foldr app]. change zero with (of_Z 0).
        rewrite add_of_Z, Z.add_0_r. reflexivity.
      * destruct (decide (amounts_at m es ++ [a] = [])) as [C|_];
          [now apply app_eq_nil in C|].
        pose proof (sum_Z_positive _ Hpos Hne) as Hs.
        unfold or_zero. rewrite truthy_of_Z.
        destruct (Z.eqb_spec (sum_Z (amounts_at m es)) 0) as [|_]; [lia|].
        cbn [negb]. now rewrite add_of_Z, sum_Z_snoc.
    + rewrite app_nil_r.
      destruct (Z.eqb_spec mm 0) as [->|Hmm]; [exact IH|].
      destruct (Z.leb_spec a 0) as [Ha|Ha]; [exact IH|]. simpl.
      rewrite lookup_insert_ne; [exact IH|].
      intros ->. apply N. repeat split; [exact Hmm|exact Ha].
  - destruct (decide (None = Some m /\ m <> 0 /\ 0 < a)) as [(E & _)|_];
      [discriminate|]. rewrite app_nil_r. exact IH.
Qed.

Lemma amounts_at_perm (m : Z) (es es' : list (option Z * Z)) :
  es ≡ₚ es' -> amounts_at m es ≡ₚ amounts_at m es'.
Proof. intros H. unfold amounts_at. now rewrite H. Qed.

Lemma sum_Z_perm (l l' : list Z) : l ≡ₚ l' -> sum_Z l = sum_Z l'.
Proof.
  unfold sum_Z. induction 1; simpl; lia.
Qed.

Lemma build_prepayMap_perm (es es' : list (option Z * Z)) :
  es ≡ₚ es' ->
  build_prepayMap (int_entry <$> es) = build_prepayMap (int_entry <$> es').
Proof.
  intros H. apply map_eq. intros m. rewrite !build_prepayMap_lookup.
  pose proof (amounts_at_perm m _ _ H) as Hp.
  rewrite (sum_Z_perm _ _ Hp).
  destruct (decide (amounts_at m es = [])) as [E|E];
    destruct (decide (amounts_at m es' = [])) as [E'|E']; try reflexivity.
  - rewrite E in Hp. apply Permutation_nil_l in Hp. congruence.
  - rewrite E' in Hp. apply Permutation_nil_r in Hp. congruence.
Qed.

(** ** The last prepayment month *)

Lemma foldr_max_ge (k : Z) (ks : list Z) (x : Z) :
  x ∈ k :: ks -> x <= foldr Z.max k ks.
Proof.
  induction ks as [|y ks IH]; simpl; intros H.
  - apply list_elem_of_singleton in H. lia.
  - apply elem_of_cons in H as [->|H].
    + assert (k <= foldr Z.max k ks) by (apply IH; left). lia.
    + apply elem_of_cons in H as [->|H]; [lia|].
      assert (x <= foldr Z.max k ks) by (apply IH; now right). lia.
Qed.

Lemma foldr_max_in (k : Z) (ks : list Z) : foldr Z.max k ks ∈ k :: ks.
Proof.
  induction ks as [|y ks IH]; simpl; [left|].
  destruct (Z.max_spec y (foldr Z.max k ks)) as [[_ ->]|[_ ->]].
  - apply elem_of_cons in IH as [E|IH]; [rewrite E; left|].
    right. now right.
  - right. left.
Qed.

Lemma lastPrepayMonth_empty (paidEmis : Z) : lastPrepayMonth ∅ paidEmis = paidEmis.
Proof. unfold lastPrepayMonth. now rewrite map_to_list_empty. Qed.

Lemma lastPrepayMonth_ge (prepayMap : gmap Z num) (k : Z) (v : num) (paidEmis : Z) :
  prepayMap !! k = Some v -> k <= lastPrepayMonth prepayMap paidEmis.
Proof.
  intros H. apply elem_of_map_to_list in H.
  assert (Hk : k ∈ (map_to_list prepayMap).*1)
    by (apply list_elem_of_fmap; now exists (k, v)).
  unfold lastPrepayMonth. destruct ((map_to_list prepayMap).*1) as [|k0 ks].
  - now apply elem_of_nil in Hk.
  - now apply foldr_max_ge.
Qed.

Lemma lastPrepayMonth_key (prepayMap : gmap Z num) (paidEmis : Z) :
  prepayMap <> ∅ -> is_Some (prepayMap !! lastPrepayMonth prepayMap paidEmis).
Proof.
  intros H. unfold lastPrepayMonth.
  destruct ((map_to_list prepayMap).*1) as [|k0 ks] eqn:E.
  - apply fmap_nil_inv in E. now apply map_to_list_empty_iff in E.
  - pose proof (foldr_max_in k0 ks) as Hin. rewrite <- E in Hin.
    apply list_elem_of_fmap in Hin as ([k v] & -> & Hin).
    apply elem_of_map_to_list in Hin. now exists v.
Qed.

Lemma target_month_ext (m1 m2 : gmap Z num) (paidEmis : Z) :
  (forall k, paidEmis <= k -> m1 !! k = m2 !! k) ->
  Z.max (lastPrepayMonth m1 paidEmis) paidEmis
  = Z.max (lastPrepayMonth m2 paidEmis) paidEmis.
Proof.
  assert (Hle : forall a b : gmap Z num,
             (forall k, paidEmis <= k -> a !! k = b !! k) ->
             Z.max (lastPrepayMonth a paidEmis) paidEmis
             <= Z.max (lastPrepayMonth b paidEmis) paidEmis).
  { intros a b H.
    destruct (Z.max_spec (lastPrepayMonth a paidEmis) paidEmis) as [[_ ->]|[Hge ->]];
      [lia|].
    destruct (decide (a = ∅)) as [->|Hne];
      [rewrite lastPrepayMonth_empty; lia|].
    destruct (lastPrepayMonth_key a paidEmis Hne) as [v Hv].
    rewrite H in Hv by exact Hge.
    pose proof (lastPrepayMonth_ge b _ _ paidEmis Hv). lia. }
  intros H. apply Z.le_antisymm; apply Hle; [exact H|].
  intros k Hk. symmetry. now apply H.
Qed.

(** ** The forward simulation reads the map only after [paidEmis] *)

Lemma simulate_ext monthlyRate emi (m1 m2 : gmap Z num) (n : nat) :
  forall currentMonth outstanding simLog,
    (forall k, currentMonth < k -> m1 !! k = m2 !! k) ->
    simulate monthlyRate emi m1 n currentMonth outstanding simLog
    = simulate monthlyRate emi m2 n currentMonth outstanding simLog.
Proof.
  induction n as [|n IH]; intros c o log H; [reflexivity|].
  rewrite !simulate_step.
  destruct (emi_step monthlyRate emi o) as [[[emiPaid i] pp] o'].
  assert (Hs : scheduled m1 (c + 1) = scheduled m2 (c + 1))
    by (unfold scheduled; rewrite H by lia; reflexivity).
  rewrite Hs.
  destruct (scheduled m2 (c + 1)); apply IH; intros k Hk; apply H; lia.
Qed.

Lemma apply_prepayments_ext monthlyRate emi paidEmis ps ps' outstanding :
  (forall k, paidEmis <= k -> build_prepayMap ps !! k = build_prepayMap ps' !! k) ->
  apply_prepayments monthlyRate emi paidEmis ps outstanding
  = apply_prepayments monthlyRate emi paidEmis ps' outstanding.
Proof.
  intros H. unfold apply_prepayments.
  rewrite (target_month_ext _ _ _ H).
  rewrite (simulate_ext _ _ (build_prepayMap ps) (build_prepayMap ps'))
    by (intros k Hk; apply H; lia).
  unfold retroactive_prepay, scheduled. rewrite H by lia. reflexivity.
Qed.

Lemma merge_other_month (m : Z) (p : Prepayment) (a1 a2 : gmap Z num) :
  (forall k, k <> m -> a1 !! k = a2 !! k) ->
  forall k, k <> m ->
    merge_prepayment a1 p !! k = merge_prepayment a2 p !! k.
Proof.
  intros H k Hk. unfold merge_prepayment.
  destruct (pp_month p) as [mm|]; [|now apply H].
  destruct ((mm =? 0) || (pp_amount p <=? zero)%num); [now apply H|].
  destruct (decide (k = mm)) as [->|Hne].
  - rewrite !lookup_insert_eq. now rewrite H.
  - rewrite !lookup_insert_ne by congruence. now apply H.
Qed.

Lemma merge_skip_month (m : Z) (p : Prepayment) (a1 a2 : gmap Z num) :
  pp_month p = Some m ->
  (forall k, k <> m -> a1 !! k = a2 !! k) ->
  forall k, k <> m -> merge_prepayment a1 p !! k = a2 !! k.
Proof.
  intros Hp H k Hk. unfold merge_prepayment. rewrite Hp.
  destruct ((m =? 0) || (pp_amount p <=? zero)%num); [now apply H|].
  rewrite lookup_insert_ne by congruence. now apply H.
Qed.

Lemma foldl_merge_other_month (m : Z) (ps : list Prepayment) :
  forall a1 a2 : gmap Z num,
    (forall k, k <> m -> a1 !! k = a2 !! k) ->
    forall k, k <> m ->
      foldl merge_prepayment a1 ps !! k = foldl merge_prepayment a2 ps !! k.
Proof.
  induction ps as [|p ps IH]; intros a1 a2 H; [exact H|].
  simpl. apply IH. now apply merge_other_month.
Qed.

Lemma build_prepayMap_without (m : Z) (p : Prepayment) (ps1 ps2 : list Prepayment) :
  pp_month p = Some m ->
  forall k, k <> m ->
    build_prepayMap (ps1 ++ p :: ps2) !! k = build_prepayMap (ps1 ++ ps2) !! k.
Proof.
  intros Hp k Hk. unfold build_prepayMap. rewrite !foldl_app. simpl.
  apply (foldl_merge_other_month m); [|exact Hk].
  apply (merge_skip_month m); [exact Hp|reflexivity].
Qed.

Lemma reschedule_ext Math_log fuel req ps ps' :
  (forall outstanding,
     apply_prepayments (annualRate req / of_Z 100 / of_Z 12)%num (req_emi req)
       (paidEmis req) ps outstanding
     = apply_prepayments (annualRate req / of_Z 100 / of_Z 12)%num (req_emi req)
         (paidEmis req) ps' outstanding) ->
  reschedule Math_log fuel (with_prepayments req ps)
  = reschedule Math_log fuel (with_prepayments req ps').
Proof.
  intros H. unfold reschedule.
  change (starting_outstanding (with_prepayments req ps))
    with (starting_outstanding (with_prepayments req ps')).
  cbn [with_prepayments annualRate req_emi paidEmis prepayments totalTenure].
  destruct (starting_outstanding _ _) as [resp|o]; [reflexivity|].
  now rewrite H.
Qed.

(** ** What the merge keeps and what the handler reads of it *)




(** X16 — a prepayment dated before [paidEmis] has no effect on the
    response, whatever its amount: the simulation starts after [paidEmis], the
    block after the loop reads month [paidEmis] only, and the month cannot
    raise the simulation's last month above [paidEmis]. *)
Theorem earlier_prepayment_ignored (Math_log : num -> num) (fuel : nat)
    (req : Request) (ps1 ps2 : list Prepayment) (p : Prepayment) (m : Z) :
  pp_month p = Some m ->
  m < paidEmis req ->
  reschedule Math_log fuel (with_prepayments req (ps1 ++ p :: ps2))
  = reschedule Math_log fuel (with_prepayments req (ps1 ++ ps2)).
Proof.
  intros Hp Hm. apply reschedule_ext. intros o. apply apply_prepayments_ext.
  intros k Hk. apply (build_prepayMap_without m); [exact Hp|lia].
Qed.

Lemma earlier_prepayment_ignored_witness :
  pp_month (mkPrepay (Some 3) (of_Z 100000)) = Some 3
  /\ 3 < paidEmis example1
  /\ reschedule Math_log 0
       (with_prepayments example1
          ([mkPrepay (Some 6) (of_Z 200000)]
           ++ mkPrepay (Some 3) (of_Z 100000) :: []))
     = reschedule Math_log 0
         (with_prepayments example1 ([mkPrepay (Some 6) (of_Z 200000)] ++ [])).
Proof.
  assert (H : 3 < paidEmis example1) by (vm_compute; reflexivity).
  split; [reflexivity|]. split; [exact H|].
  exact (earlier_prepayment_ignored Math_log 0 example1
           [mkPrepay (Some 6) (of_Z 200000)] []
           (mkPrepay (Some 3) (of_Z 100000)) 3 eq_refl H).
Defined.

(** X17 — an entry whose amount is not a number is not discarded by the
    merge: it replaces what was merged under its month by [NaN], so that no
    prepayment is applied in that month although the month still counts for
    the simulation's last month; a valid entry merged after it starts the
    month's sum again from zero. *)
Theorem nan_amount_overwrites_month (ps : list Prepayment) (mm paidEmis a : Z) :
  mm <> 0 ->
  0 < a ->
  let prepayMap := build_prepayMap (ps ++ [mkPrepay (Some mm) NaN]) in
  prepayMap !! mm = Some NaN
  /\ scheduled prepayMap mm = None
  /\ mm <= Z.max (lastPrepayMonth prepayMap paidEmis) paidEmis
  /\ build_prepayMap (ps ++ [mkPrepay (Some mm) NaN; mkPrepay (Some mm) (of_Z a)])
       !! mm = Some (of_Z a).
Proof.
  intros Hmm Ha. cbv zeta.
  assert (H1 : build_prepayMap (ps ++ [mkPrepay (Some mm) NaN]) !! mm = Some NaN).
  { unfold build_prepayMap. rewrite foldl_app. simpl.
    unfold merge_prepayment. simpl.
    destruct (Z.eqb_spec mm 0) as [|_]; [contradiction|]. simpl.
    rewrite lookup_insert_eq. f_equal.
    unfold or_zero. destruct (_ !! mm) as [v|]; [|reflexivity].
    destruct (truthy v); [|reflexivity]. now destruct v. }
  repeat split.
  - exact H1.
  - unfold scheduled. now rewrite H1.
  - pose proof (lastPrepayMonth_ge _ _ _ paidEmis H1). lia.
  - change (ps ++ [mkPrepay (Some mm) NaN; mkPrepay (Some mm) (of_Z a)])
      with (ps ++ [mkPrepay (Some mm) NaN] ++ [mkPrepay (Some mm) (of_Z a)]).
    rewrite app_assoc. unfold build_prepayMap in *. rewrite foldl_app.
    simpl. unfold merge_prepayment at 1. simpl.
    destruct (Z.eqb_spec mm 0) as [|_]; [contradiction|].
    change (of_Z a <=? zero)%num with (of_Z a <=? of_Z 0)%num.
    rewrite leb_of_Z. destruct (Z.leb_spec a 0) as [|_]; [lia|]. simpl.
    rewrite lookup_insert_eq, H1. cbn [or_zero truthy].
    change zero with (of_Z 0). now rewrite add_of_Z.
Qed.

Lemma nan_amount_overwrites_month_witness :
  let prepayMap :=
    build_prepayMap ([mkPrepay (Some 14) (of_Z 50000)] ++ [mkPrepay (Some 14) NaN]) in
  prepayMap !! 14 = Some NaN
  /\ scheduled prepayMap 14 = None
  /\ 14 <= Z.max (lastPrepayMonth prepayMap 12) 12
  /\ build_prepayMap
       ([mkPrepay (Some 14) (of_Z 50000)]
        ++ [mkPrepay (Some 14) NaN; mkPrepay (Some 14) (of_Z 7000)])
       !! 14 = Some (of_Z 7000).
Proof.
  apply (nan_amount_overwrites_month [mkPrepay (Some 14) (of_Z 50000)] 14 12 7000);
    lia.
Defined.

(** ** What a successful response is made of *)

Lemma reschedule_Ok_inv Math_log fuel req body :
  reschedule Math_log fuel req = Some (Ok body) ->
  let monthlyRate := (annualRate req / of_Z 100 / of_Z 12)%num in
  let target :=
    Z.max (lastPrepayMonth (build_prepayMap (prepayments req)) (paidEmis req))
      (paidEmis req) in
  exists outstanding,
    starting_outstanding req monthlyRate = inr outstanding
    /\ apply_prepayments monthlyRate (req_emi req) (paidEmis req)
         (prepayments req) outstanding
       = (outstandingAfterPrepayments body, simLog body, target)
    /\ keepEMI_scenario Math_log fuel (outstandingAfterPrepayments body)
         monthlyRate (req_emi req) = Some (keepEMI body)
    /\ reduceEMI_scenario fuel (outstandingAfterPrepayments body) monthlyRate
         (totalTenure req) target = Some (Normal (reduceEMI body)).
Proof.
  unfold reschedule. intros H. cbv zeta in *.
  destruct (starting_outstanding req (annualRate req / of_Z 100 / of_Z 12))
    as [response|outstanding] eqn:S.
  { apply (inj Some) in H. subst response.
    now apply starting_outstanding_not_ok in S. }
  exists outstanding. split; [reflexivity|].
  unfold apply_prepayments in *.
  destruct (retroactive_prepay _ _ _) as [balance log] in *.
  destruct (keepEMI_scenario Math_log fuel balance _ _) as [keep|] eqn:K in H;
    [|discriminate].
  destruct (reduceEMI_scenario fuel balance _ _ _) as [[red|message]|] eqn:E in H;
    try discriminate.
  apply (inj Some) in H. injection H as <-.
  cbn [outstandingAfterPrepayments simLog keepEMI reduceEMI].
  repeat split; assumption.
Qed.

(** ** The outline of the simulation log *)

Lemma simulate_outline monthlyRate emi prepayMap (n : nat) :
  forall currentMonth outstanding simLog,
    outline (simulate monthlyRate emi prepayMap n currentMonth outstanding
               simLog).2
    = outline simLog
      ++ (seqZ (currentMonth + 1) (Z.of_nat n) ≫= month_outline prepayMap).
Proof.
  induction n as [|n IH]; intros c o log.
  - simpl. now rewrite app_nil_r.
  - rewrite simulate_step.
    destruct (emi_step monthlyRate emi o) as [[[emiPaid i] pp] o'].
    rewrite seqZ_cons by lia.
    replace (Z.pred (Z.of_nat (S n))) with (Z.of_nat n) by lia.
    change (Z.succ (c + 1)) with (c + 1 + 1).
    cbn [mbind list_bind]. fold (mbind (M := list) (month_outline prepayMap)).
    unfold month_outline at 1.
    destruct (scheduled prepayMap (c + 1)) as [amount|]; rewrite IH;
      unfold outline; rewrite ?fmap_app; cbn [fmap list_fmap ev_month ev_action];
      rewrite <- ?app_assoc; reflexivity.
Qed.

Lemma apply_prepayments_outline monthlyRate emi paidEmis ps outstanding :
  let prepayMap := build_prepayMap ps in
  outline (apply_prepayments monthlyRate emi paidEmis ps outstanding).1.2
  = expected_outline prepayMap paidEmis
      (Z.max (lastPrepayMonth prepayMap paidEmis) paidEmis).
Proof.
  cbv zeta. unfold apply_prepayments, expected_outline.
  set (prepayMap := build_prepayMap ps).
  set (target := Z.max (lastPrepayMonth prepayMap paidEmis) paidEmis).
  pose proof (simulate_outline monthlyRate emi prepayMap
                (Z.to_nat (target - paidEmis)) paidEmis outstanding []) as H.
  rewrite Z2Nat.id in H by lia.
  destruct (simulate _ _ _ _ _ _ _) as [o log]. simpl in H.
  unfold retroactive_prepay.
  destruct (scheduled prepayMap paidEmis) as [amount|]; simpl; now rewrite H.
Qed.

(** ** The balance after the prepayments *)

Lemma emi_step_balance (r e o : Q) :
  exists z, (emi_step (Fin r) (Fin e) (Fin o)).2 = of_Z z /\ 0 <= z.
Proof.
  unfold emi_step. cbv zeta. cbn [snd].
  change (round (Fin o * Fin r))
    with (Fin (inject_Z (Qfloor (Qred (o * r) + (1 # 2))))).
  destruct (sub_Fin e (inject_Z (Qfloor (Qred (o * r) + (1 # 2)))))
    as (d & Ed & _).
  rewrite Ed.
  assert (Hp : exists p, (if (Fin d >? Fin o)%num then Fin o else Fin d) = Fin p
                         /\ (p <= o)%Q).
  { destruct (Fin d >? Fin o)%num eqn:C.
    - exists o. split; [reflexivity|lra].
    - exists d. apply ltb_Fin_false in C. split; [reflexivity|exact C]. }
  destruct Hp as (p & -> & Hp).
  destruct (sub_Fin o p) as (d' & -> & Hd').
  eexists. split; [reflexivity|]. apply round_nonneg. lra.
Qed.

Lemma prepay_balance (o : Q) (amount : num) :
  truthy amount = true -> amount <> NegInf ->
  exists z, max zero (round (Fin o - amount)) = of_Z z /\ 0 <= z.
Proof.
  intros Ht Hn. destruct amount as [| | |a]; try discriminate; try congruence.
  - exists 0. split; reflexivity.
  - destruct (sub_Fin o a) as (d & -> & _).
    cbn [round]. set (w := Qfloor (d + (1 # 2))).
    unfold max. change zero with (of_Z 0). rewrite cmp_of_Z.
    destruct (Z.compare_spec 0 w); [exists 0|exists w|exists 0];
      (split; [reflexivity|lia]).
Qed.

Lemma build_prepayMap_no_NegInf (ps : list Prepayment) :
  forall acc : gmap Z num,
    (forall k, acc !! k <> Some NegInf) ->
    forall k, foldl merge_prepayment acc ps !! k <> Some NegInf.
Proof.
  induction ps as [|p ps IH]; intros acc H; [exact H|].
  simpl. apply IH. intros k. unfold merge_prepayment.
  destruct (pp_month p) as [mm|]; [|apply H].
  destruct (mm =? 0); [apply H|]. simpl.
  destruct (pp_amount p <=? zero)%num eqn:L; [apply H|].
  destruct (decide (k = mm)) as [->|Hne];
    [|rewrite lookup_insert_ne by congruence; apply H].
  rewrite lookup_insert_eq. intros E. apply (inj Some) in E.
  assert (Hz : or_zero (acc !! mm) <> NegInf).
  { unfold or_zero. destruct (acc !! mm) as [v|] eqn:V; [|discriminate].
    destruct (truthy v); [|discriminate]. intros ->. now apply (H mm). }
  destruct (or_zero (acc !! mm)) as [| | |x]; destruct (pp_amount p) as [| | |y];
    try discriminate; try congruence.
Qed.

Lemma scheduled_amount (ps : list Prepayment) (m : Z) (amount : num) :
  scheduled (build_prepayMap ps) m = Some amount ->
  truthy amount = true /\ amount <> NegInf.
Proof.
  unfold scheduled. intros H.
  destruct (build_prepayMap ps !! m) as [v|] eqn:V; [|discriminate].
  destruct (truthy v) eqn:T; [|discriminate]. injection H as <-.
  split; [exact T|]. intros ->.
  apply (build_prepayMap_no_NegInf ps ∅) with (k := m); [|exact V].
  intros k. now rewrite lookup_empty.
Qed.

Lemma simulate_balance (r e : Q) (ps : list Prepayment) (n : nat) :
  forall currentMonth (o : Q) simLog,
    let st := simulate (Fin r) (Fin e) (build_prepayMap ps) n currentMonth
                (Fin o) simLog in
    (n = O /\ st = (Fin o, simLog))
    \/ (exists ev evs z, st.2 = simLog ++ ev :: evs /\ st.1 = of_Z z /\ 0 <= z).
Proof.
  induction n as [|n IH]; intros c o log; cbv zeta; [left; split; reflexivity|].
  right. rewrite simulate_step.
  destruct (emi_step_balance r e o) as (z & Hz & Hz0).
  destruct (emi_step (Fin r) (Fin e) (Fin o)) as [[[emiPaid i] pp] o'].
  simpl in Hz. subst o'. cbv zeta.
  destruct (scheduled (build_prepayMap ps) (c + 1)) as [amount|] eqn:S.
  - destruct (scheduled_amount _ _ _ S) as [Ht Hn].
    destruct (prepay_balance (inject_Z z) amount Ht Hn) as (w & Hw & Hw0).
    fold (of_Z z) in Hw. rewrite Hw.
    specialize (IH (c + 1) (inject_Z w)
      ((log ++ [EMI (c + 1) emiPaid i pp (of_Z z)])
       ++ [PREPAY (c + 1) amount (of_Z z) (of_Z w)])).
    cbv zeta in IH. fold (of_Z w) in IH.
    destruct IH as [[-> ->]|(ev & evs & z' & H2 & H1 & H0)].
    + simpl. rewrite <- app_assoc. simpl. eauto 8.
    + rewrite H2, H1. rewrite <- !app_assoc. simpl. eauto 8.
  - specialize (IH (c + 1) (inject_Z z)
      (log ++ [EMI (c + 1) emiPaid i pp (of_Z z)])).
    cbv zeta in IH. fold (of_Z z) in IH.
    destruct IH as [[-> ->]|(ev & evs & z' & H2 & H1 & H0)].
    + simpl. eauto 8.
    + rewrite H2, H1. rewrite <- !app_assoc. simpl. eauto 8.
Qed.

(** ** The log and the balance of a response *)

(** X18 — the log of a successful response lists, in this order: the
    prepayment dated [paidEmis] if one is scheduled; then for each month from
    [paidEmis + 1] to the last prepayment month, one after the other, its EMI
    entry, followed by its prepayment entry when one is scheduled. *)
Theorem simLog_outline (Math_log : num -> num) (fuel : nat) (req : Request)
    (body : Body) :
  reschedule Math_log fuel req = Some (Ok body) ->
  let prepayMap := build_prepayMap (prepayments req) in
  outline (simLog body)
  = expected_outline prepayMap (paidEmis req)
      (Z.max (lastPrepayMonth prepayMap (paidEmis req)) (paidEmis req)).
Proof.
  intros H. apply reschedule_Ok_inv in H as (o & _ & H & _).
  cbv zeta.
  rewrite <- (apply_prepayments_outline (annualRate req / of_Z 100 / of_Z 12)%num
                (req_emi req) _ _ o).
  now rewrite H.
Qed.

Lemma simLog_outline_witness :
  exists body,
    reschedule Math_log 0 two_prepayments = Some (Ok body)
    /\ outline (simLog body)
       = [(1, "PREPAY_AFTER_ALREADY_PAID_EMI"); (2, "EMI"); (2, "PREPAY")].
Proof.
  assert (H : exists body, reschedule Math_log 0 two_prepayments = Some (Ok body))
    by (vm_compute; eexists; reflexivity).
  destruct H as [body H]. exists body. split; [exact H|].
  rewrite (simLog_outline Math_log 0 two_prepayments body H).
  vm_compute. reflexivity.
Defined.


(** X20 — an entry that fails the test of the merge (its month is not a
    number or is 0, or its amount is zero, negative or minus infinity) leaves
    the merged map and the response as they are without it. *)
Theorem discarded_prepayment_has_no_effect (Math_log : num -> num) (fuel : nat)
    (req : Request) (ps1 ps2 : list Prepayment) (p : Prepayment) :
  discarded p = true ->
  build_prepayMap (ps1 ++ p :: ps2) = build_prepayMap (ps1 ++ ps2)
  /\ reschedule Math_log fuel (with_prepayments req (ps1 ++ p :: ps2))
     = reschedule Math_log fuel (with_prepayments req (ps1 ++ ps2)).
Proof.
  intros H.
  assert (Hmap : build_prepayMap (ps1 ++ p :: ps2) = build_prepayMap (ps1 ++ ps2)).
  { unfold build_prepayMap. rewrite !foldl_app. simpl. f_equal.
    unfold merge_prepayment. unfold discarded in H.
    destruct (pp_month p); [|reflexivity]. now rewrite H. }
  split; [exact Hmap|].
  apply reschedule_ext. intros o. apply apply_prepayments_ext.
  intros k _. now rewrite Hmap.
Qed.

Lemma discarded_prepayment_has_no_effect_witness :
  build_prepayMap
    ([mkPrepay (Some 2) (of_Z 1000)] ++ mkPrepay (Some 3) (of_Z (-500)) :: [])
  = build_prepayMap ([mkPrepay (Some 2) (of_Z 1000)] ++ [])
  /\ reschedule Math_log 0
       (with_prepayments two_prepayments
          ([mkPrepay (Some 2) (of_Z 1000)]
           ++ mkPrepay (Some 3) (of_Z (-500)) :: []))
     = reschedule Math_log 0
         (with_prepayments two_prepayments ([mkPrepay (Some 2) (of_Z 1000)] ++ [])).
Proof.
  apply (discarded_prepayment_has_no_effect Math_log 0 two_prepayments
           [mkPrepay (Some 2) (of_Z 1000)] [] (mkPrepay (Some 3) (of_Z (-500)))).
  reflexivity.
Defined.

(** ** The starting balance *)

(** X21 — the handler answers 400 exactly when the request has no principal
    and either no official schedule or one with fewer rows than
    [max(0, paidEmis)]; the message is then the fixed one. *)
Theorem bad_request_iff (Math_log : num -> num) (fuel : nat) (req : Request)
    (message : string) :
  reschedule Math_log fuel req = Some (Status400 message)
  <-> (message = NO_OUTSTANDING
       /\ req_principal req = None
       /\ match officialSchedule req with
          | Some sched => Z.of_nat (length sched) < Z.max 0 (paidEmis req)
          | None => True
          end).
Proof.
  unfold reschedule. cbv zeta.
  destruct (starting_outstanding req (annualRate req / of_Z 100 / of_Z 12))
    as [response|outstanding] eqn:S.
  - unfold starting_outstanding, row_outstanding in S.
    destruct (officialSchedule req) as [sched|].
    + destruct (Z.geb_spec (Z.of_nat (length sched)) (Z.max 0 (paidEmis req)))
        as [Hlen|Hlen].
      * split; [|lia]. intros H. apply (inj Some) in H. subst response.
        repeat case_match; discriminate.
      * destruct (req_principal req); [discriminate|].
        apply (inj inl) in S. subst response.
        split; [intros H; apply (inj Some) in H; injection H as <-; auto|].
        now intros (-> & _).
    + destruct (req_principal req); [discriminate|].
      apply (inj inl) in S. subst response.
      split; [intros H; apply (inj Some) in H; injection H as <-; auto|].
      now intros (-> & _).
  - assert (Hp : exists p, req_principal req = Some p
                 \/ exists sched, officialSchedule req = Some sched
                    /\ Z.max 0 (paidEmis req) <= Z.of_nat (length sched)).
    { unfold starting_outstanding in S.
      destruct (officialSchedule req) as [sched|].
      - destruct (Z.geb_spec (Z.of_nat (length sched)) (Z.max 0 (paidEmis req))).
        + exists zero. right. exists sched. split; [reflexivity|lia].
        + destruct (req_principal req) as [p|]; [|discriminate]. eauto.
      - destruct (req_principal req) as [p|]; [|discriminate]. eauto. }
    split.
    + destruct (apply_prepayments _ _ _ _ _) as [[bal log] t].
      destruct (keepEMI_scenario _ _ _ _ _); [|discriminate].
      destruct (reduceEMI_scenario _ _ _ _ _) as [[red|m]|]; discriminate.
    + intros (_ & Hnone & Hs). destruct Hp as (p & [Hp|(sched & Hsched & Hlen)]).
      * congruence.
      * rewrite Hsched in Hs. lia.
Qed.

(** X22 — with an official schedule that has at least [paidEmis] rows and
    [paidEmis >= 1], the starting balance is the balance of row [paidEmis] of
    that schedule; the principal and the EMI of the request play no part. *)
Theorem official_schedule_row_wins (req : Request) (monthlyRate : num)
    (sched : list num) :
  officialSchedule req = Some sched ->
  0 < paidEmis req <= Z.of_nat (length sched) ->
  exists balance,
    sched !! Z.to_nat (paidEmis req - 1) = Some balance
    /\ starting_outstanding req monthlyRate = inr balance.
Proof.
  intros Hs Hk. unfold starting_outstanding, row_outstanding. rewrite Hs.
  destruct (Z.geb_spec (Z.of_nat (length sched)) (Z.max 0 (paidEmis req)));
    [|lia].
  destruct (Z.eqb_spec (paidEmis req) 0); [lia|].
  destruct (Z.ltb_spec (paidEmis req - 1) 0); [lia|].
  destruct (lookup_lt_is_Some_2 sched (Z.to_nat (paidEmis req - 1))) as [b Hb];
    [lia|].
  exists b. now rewrite Hb.
Qed.

Lemma official_schedule_row_wins_witness :
  exists balance,
    [of_Z 99000; of_Z 97990; of_Z 96970] !! Z.to_nat (2 - 1) = Some balance
    /\ starting_outstanding with_official_schedule (Fin (1 # 100)) = inr balance.
Proof.
  apply (official_schedule_row_wins with_official_schedule (Fin (1 # 100))
           [of_Z 99000; of_Z 97990; of_Z 96970]).
  - reflexivity.
  - simpl. lia.
Defined.

(** X23 — an official schedule whose row is missing where the handler reads
    it ends the request with status 500: this is so for a negative
    [paidEmis], and for [paidEmis = 0] with an empty schedule and a principal
    that is absent or falsy. *)
Theorem missing_row_is_server_error (Math_log : num -> num) (fuel : nat)
    (req : Request) (sched : list num) :
  officialSchedule req = Some sched ->
  paidEmis req < 0
  \/ (paidEmis req = 0 /\ sched = []
      /\ forall p, req_principal req = Some p -> truthy p = false) ->
  reschedule Math_log fuel req = Some (Status500 UNDEFINED_ROW).
Proof.
  intros Hs H. unfold reschedule. cbv zeta.
  assert (S : starting_outstanding req (annualRate req / of_Z 100 / of_Z 12)
              = inl (Status500 UNDEFINED_ROW)).
  { unfold starting_outstanding, row_outstanding. rewrite Hs.
    destruct (Z.geb_spec (Z.of_nat (length sched)) (Z.max 0 (paidEmis req)))
      as [_|Hlen].
    - destruct H as [H|(H0 & -> & Hp)].
      + destruct (Z.eqb_spec (paidEmis req) 0); [lia|].
        destruct (Z.ltb_spec (paidEmis req - 1) 0); [reflexivity|lia].
      + rewrite H0. simpl.
        destruct (req_principal req) as [p|]; [|reflexivity].
        now rewrite (Hp p eq_refl).
    - destruct H as [H|(H0 & -> & _)]; simpl in Hlen; lia. }
  now rewrite S.
Qed.

Lemma missing_row_is_server_error_witness :
  reschedule Math_log 0 empty_official_schedule = Some (Status500 UNDEFINED_ROW).
Proof.
  apply (missing_row_is_server_error Math_log 0 empty_official_schedule []).
  - reflexivity.
  - right. split; [reflexivity|]. split; [reflexivity|]. intros p Hp.
    discriminate.
Defined.

(** ** The interest column *)

Lemma month_interest_value (r : Q) (z : Z) :
  month_interest (Fin r) (of_Z z) = of_Z (Qfloor (inject_Z z * r + (1 # 2))).
Proof.
  change (month_interest (Fin r) (of_Z z))
    with (of_Z (Qfloor (Qred (inject_Z z * r) + (1 # 2)))).
  f_equal. apply Qfloor_comp. now rewrite Qred_correct.
Qed.

Lemma first_interest_monotone (r : Q) (z1 z2 : Z) :
  (0 <= r)%Q -> z1 <= z2 ->
  Qfloor (inject_Z z1 * r + (1 # 2)) <= Qfloor (inject_Z z2 * r + (1 # 2)).
Proof.
  intros Hr Hz. apply Qfloor_resp_le.
  apply Qplus_le_l, Qmult_le_compat_r; [|exact Hr]. now rewrite <- Zle_Qle.
Qed.

Lemma first_interest_nonneg (r : Q) (z : Z) :
  (0 <= r)%Q -> 0 <= z -> 0 <= Qfloor (inject_Z z * r + (1 # 2)).
Proof.
  intros Hr Hz. apply round_nonneg. apply Qmult_le_0_compat; [|exact Hr].
  change 0%Q with (inject_Z 0). now rewrite <- Zle_Qle.
Qed.

Lemma amortizes_interest (r e : Q) (maxMonths : num) :
  (0 <= r)%Q ->
  forall balance count res,
    amortizes (Fin r) (Fin e) maxMonths balance count res ->
    forall z rows, balance = of_Z z -> res = Normal rows ->
      Forall (fun row => exists i, interest row = of_Z i
                /\ 0 <= i <= Qfloor (inject_Z z * r + (1 # 2))) rows
      /\ (forall k row1 row2, rows !! k = Some row1 -> rows !! S k = Some row2 ->
            (interest row2 <=? interest row1)%num = true).
Proof.
  intros Hr.
  induction 1 as [B c G|B c G P|B c rest G P H IH]; intros z rows -> E.
  - injection E as <-. split; [constructor|]. intros k row1 row2 Hk. discriminate.
  - discriminate.
  - destruct rest as [rows'|]; [|discriminate]. injection E as <-.
    pose proof G as G'. apply andb_true_iff in G' as [Gb _].
    destruct (month_finite r e (inject_Z z) Gb P) as (p & b' & _ & Hb' & Hb0 & Hle).
    specialize (Hle z eq_refl).
    fold (of_Z z) in Hb'.
    destruct (IH b' rows' Hb' eq_refl) as [IH1 IH2].
    assert (Hz : 0 < z).
    { unfold gtb in Gb. change zero with (of_Z 0) in Gb.
      rewrite ltb_of_Z in Gb. now apply Z.ltb_lt in Gb. }
    pose proof (first_interest_monotone r b' z Hr Hle) as Hmono.
    pose proof (first_interest_nonneg r z Hr ltac:(lia)) as Hnn.
    assert (Hi : interest (month_row (Fin r) (Fin e) (of_Z z) c)
                 = of_Z (Qfloor (inject_Z z * r + (1 # 2))))
      by apply month_interest_value.
    split.
    + constructor.
      * eexists. split; [exact Hi|lia].
      * eapply Forall_impl; [exact IH1|]. cbv beta.
        intros row (i & Hrow & Hrange). exists i. split; [exact Hrow|lia].
    + intros [|k] row1 row2 H1 H2.
      * injection H1 as <-. rewrite Hi.
        destruct rows' as [|row' rows'']; [discriminate|].
        injection H2 as <-. apply Forall_cons in IH1 as [(i & -> & Hrange) _].
        rewrite leb_of_Z. apply Z.leb_le. lia.
      * exact (IH2 k row1 row2 H1 H2).
Qed.

Lemma sum_interest_integer (rows : list ScheduleRow) (bound : Z) :
  Forall (fun row => exists i, interest row = of_Z i /\ 0 <= i <= bound) rows ->
  forall a, exists s,
    foldl (fun s r => (s + interest r)%num) (of_Z a) rows = of_Z s
    /\ a <= s <= a + Z.of_nat (length rows) * bound.
Proof.
  induction 1 as [|row rows (i & Hi & Hrange) _ IH]; intros a.
  - exists a. split; [reflexivity|simpl; lia].
  - cbn [foldl]. rewrite Hi, add_of_Z.
    destruct (IH (a + i)) as (s & -> & Hs). exists s. split; [reflexivity|].
    cbn [length]. nia.
Qed.



(** ** More prepaid, never more owed *)

Lemma target_month_same_keys (m1 m2 : gmap Z num) (paidEmis : Z) :
  (forall k, is_Some (m1 !! k) <-> is_Some (m2 !! k)) ->
  Z.max (lastPrepayMonth m1 paidEmis) paidEmis
  = Z.max (lastPrepayMonth m2 paidEmis) paidEmis.
Proof.
  assert (Hle : forall a b : gmap Z num,
             (forall k, is_Some (a !! k) -> is_Some (b !! k)) ->
             Z.max (lastPrepayMonth a paidEmis) paidEmis
             <= Z.max (lastPrepayMonth b paidEmis) paidEmis).
  { intros a b H.
    destruct (decide (a = ∅)) as [->|Hne];
      [rewrite lastPrepayMonth_empty; lia|].
    destruct (H _ (lastPrepayMonth_key a paidEmis Hne)) as [v Hv].
    pose proof (lastPrepayMonth_ge b _ _ paidEmis Hv). lia. }
  intros H. apply Z.le_antisymm; apply Hle; intros k; apply H.
Qed.

Lemma scheduled_lookup (es : list (option Z * Z)) (m : Z) :
  scheduled (build_prepayMap (int_entry <$> es)) m
  = if decide (amounts_at m es = []) then None
    else Some (of_Z (sum_Z (amounts_at m es))).
Proof.
  unfold scheduled. rewrite build_prepayMap_lookup.
  destruct (decide (amounts_at m es = [])) as [E|E]; [reflexivity|].
  pose proof (sum_Z_positive _ (amounts_at_positive m es) E) as Hs.
  rewrite truthy_of_Z.
  destruct (Z.eqb_spec (sum_Z (amounts_at m es)) 0) as [|_]; [lia|reflexivity].
Qed.

Lemma emi_step_monotone (r e o1 o2 : Q) :
  (0 <= r)%Q -> (o2 <= o1)%Q ->
  exists z1 z2,
    (emi_step (Fin r) (Fin e) (Fin o1)).2 = of_Z z1
    /\ (emi_step (Fin r) (Fin e) (Fin o2)).2 = of_Z z2
    /\ z2 <= z1.
Proof.
  intros Hr Ho.
  assert (Hstep : forall o : Q, exists z,
            (emi_step (Fin r) (Fin e) (Fin o)).2 = of_Z z
            /\ ((e - inject_Z (Qfloor (o * r + (1 # 2))) <= o)%Q ->
                z = Qfloor (o - (e - inject_Z (Qfloor (o * r + (1 # 2))))
                           + (1 # 2)))
            /\ ((o < e - inject_Z (Qfloor (o * r + (1 # 2))))%Q -> z = 0)).
  { intros o. unfold emi_step. cbv zeta. cbn [snd].
    change (round (Fin o * Fin r))
      with (Fin (inject_Z (Qfloor (Qred (o * r) + (1 # 2))))).
    assert (Ei : Qfloor (Qred (o * r) + (1 # 2)) = Qfloor (o * r + (1 # 2)))
      by (apply Qfloor_comp; now rewrite Qred_correct).
    rewrite Ei.
    destruct (sub_Fin e (inject_Z (Qfloor (o * r + (1 # 2))))) as (d & -> & Hd).
    destruct (Fin d >? Fin o)%num eqn:C.
    - apply ltb_Fin in C. destruct (sub_Fin o o) as (d' & -> & Hd').
      exists (Qfloor (d' + (1 # 2))). split; [reflexivity|]. split.
      + intros H. lra.
      + intros _. apply round_integer_half. rewrite Hd'.
        change (inject_Z 0) with 0%Q. ring.
    - apply ltb_Fin_false in C. destruct (sub_Fin o d) as (d' & -> & Hd').
      exists (Qfloor (d' + (1 # 2))). split; [reflexivity|]. split.
      + intros _. apply Qfloor_comp. rewrite Hd', Hd. reflexivity.
      + intros H. lra. }
  destruct (Hstep o1) as (z1 & E1 & F1 & G1).
  destruct (Hstep o2) as (z2 & E2 & F2 & G2).
  exists z1, z2. split; [exact E1|]. split; [exact E2|].
  assert (Hi : (inject_Z (Qfloor (o2 * r + (1 # 2)))
                <= inject_Z (Qfloor (o1 * r + (1 # 2))))%Q).
  { rewrite <- Zle_Qle. apply Qfloor_resp_le.
    apply Qplus_le_l, Qmult_le_compat_r; assumption. }
  set (i1 := inject_Z (Qfloor (o1 * r + (1 # 2)))) in *.
  set (i2 := inject_Z (Qfloor (o2 * r + (1 # 2)))) in *.
  destruct (Qlt_le_dec o2 (e - i2)) as [L2|L2].
  - rewrite (G2 L2).
    destruct (Qlt_le_dec o1 (e - i1)) as [L1|L1]; [rewrite (G1 L1); lia|].
    rewrite (F1 L1). apply round_nonneg. lra.
  - rewrite (F2 L2).
    destruct (Qlt_le_dec o1 (e - i1)) as [L1|L1]; [lra|].
    rewrite (F1 L1). apply Qfloor_resp_le. lra.
Qed.

Lemma prepay_monotone (o1 o2 : Q) (a1 a2 : Z) :
  (o2 <= o1)%Q -> a1 <= a2 ->
  exists w1 w2,
    max zero (round (Fin o1 - of_Z a1)) = of_Z w1
    /\ max zero (round (Fin o2 - of_Z a2)) = of_Z w2
    /\ w2 <= w1.
Proof.
  intros Ho Ha.
  assert (Hval : forall (o : Q) (a : Z), exists d,
            max zero (round (Fin o - of_Z a))
            = of_Z (Z.max 0 (Qfloor (d + (1 # 2))))
            /\ (d == o - inject_Z a)%Q).
  { intros o a. unfold of_Z at 1. destruct (sub_Fin o (inject_Z a)) as (d & -> & Hd).
    exists d. split; [|exact Hd]. cbn [round].
    unfold max. change zero with (of_Z 0). rewrite cmp_of_Z.
    destruct (Z.compare_spec 0 (Qfloor (d + (1 # 2)))); f_equal; lia. }
  destruct (Hval o1 a1) as (d1 & -> & H1).
  destruct (Hval o2 a2) as (d2 & -> & H2).
  eexists _, _. split; [reflexivity|]. split; [reflexivity|].
  apply Z.max_le_compat_l, Qfloor_resp_le.
  rewrite H1, H2. rewrite Zle_Qle in Ha. lra.
Qed.

Lemma simulate_monotone (r e : Q) (m1 m2 : gmap Z num) (n : nat) :
  (0 <= r)%Q ->
  (forall k, (scheduled m1 k = None /\ scheduled m2 k = None)
             \/ exists a1 a2, scheduled m1 k = Some (of_Z a1)
                  /\ scheduled m2 k = Some (of_Z a2) /\ a1 <= a2) ->
  forall currentMonth (o1 o2 : Q) log1 log2,
    (o2 <= o1)%Q ->
    exists q1 q2 : Q,
      (simulate (Fin r) (Fin e) m1 n currentMonth (Fin o1) log1).1 = Fin q1
      /\ (simulate (Fin r) (Fin e) m2 n currentMonth (Fin o2) log2).1 = Fin q2
      /\ (q2 <= q1)%Q.
Proof.
  intros Hr Hm. induction n as [|n IH]; intros c o1 o2 log1 log2 Ho.
  - exists o1, o2. repeat split; [exact Ho].
  - rewrite !simulate_step.
    destruct (emi_step_monotone r e o1 o2 Hr Ho) as (z1 & z2 & E1 & E2 & Hz).
    destruct (emi_step (Fin r) (Fin e) (Fin o1)) as [[[ep1 i1] pp1] o1'].
    destruct (emi_step (Fin r) (Fin e) (Fin o2)) as [[[ep2 i2] pp2] o2'].
    cbn [snd] in E1, E2. subst o1' o2'. cbv zeta.
    assert (Hq : (inject_Z z2 <= inject_Z z1)%Q) by now rewrite <- Zle_Qle.
    destruct (Hm (c + 1)) as [[-> ->]|(a1 & a2 & -> & -> & Ha)].
    + apply IH. exact Hq.
    + destruct (prepay_monotone (inject_Z z1) (inject_Z z2) a1 a2 Hq Ha)
        as (w1 & w2 & W1 & W2 & Hw).
      fold (of_Z z1) in W1. fold (of_Z z2) in W2. rewrite W1, W2.
      apply IH. now rewrite <- Zle_Qle.
Qed.

Lemma amounts_at_insert (k : Z) (es1 es2 : list (option Z * Z)) (e : option Z * Z) :
  amounts_at k (es1 ++ e :: es2)
  = amounts_at k es1
    ++ (if decide (e.1 = Some k /\ k <> 0 /\ 0 < e.2) then [e.2] else [])
    ++ amounts_at k es2.
Proof.
  unfold amounts_at. rewrite filter_app, filter_cons, fmap_app.
  now destruct (decide _).
Qed.

Lemma sum_Z_app (l1 l2 : list Z) : sum_Z (l1 ++ l2) = sum_Z l1 + sum_Z l2.
Proof. unfold sum_Z. induction l1 as [|x l1 IH]; simpl; lia. Qed.

Lemma raised_amount_related (es1 es2 : list (option Z * Z)) (m a1 a2 k : Z) :
  0 < a1 <= a2 ->
  let l1 := amounts_at k (es1 ++ (Some m, a1) :: es2) in
  let l2 := amounts_at k (es1 ++ (Some m, a2) :: es2) in
  (l1 = [] <-> l2 = []) /\ sum_Z l1 <= sum_Z l2.
Proof.
  intros Ha. cbv zeta. rewrite !amounts_at_insert. cbn [fst snd].
  destruct (decide (Some m = Some k /\ k <> 0 /\ 0 < a1)) as [D1|D1];
    destruct (decide (Some m = Some k /\ k <> 0 /\ 0 < a2)) as [D2|D2].
  - split.
    + split; intros H; apply app_eq_nil in H as [_ H]; discriminate.
    + rewrite !sum_Z_app. unfold sum_Z at 2 5. simpl. lia.
  - exfalso. apply D2. destruct D1 as (? & ? & ?). repeat split; [assumption..|lia].
  - exfalso. apply D1. destruct D2 as (? & ? & ?). repeat split; [assumption..|lia].
  - split; [reflexivity|lia].
Qed.



(** ** The target EMI against the balance and the tenure *)

Lemma annuity_monotone (b1 b2 r : Q) (n1 n2 : Z) :
  (0 < r)%Q -> 0 < n1 <= n2 -> (0 <= b2 <= b1)%Q ->
  annuity b2 r n2 <= annuity b1 r n1.
Proof.
  intros Hr Hn Hb. unfold annuity. apply Qfloor_resp_le, Qplus_le_l.
  assert (H1 : (1 < (1 + r) ^ n1)%Q) by (apply Qpower_1_lt; [lra|lia]).
  assert (H12 : ((1 + r) ^ n1 <= (1 + r) ^ n2)%Q)
    by (apply Qpower_le_compat_l; [lia|lra]).
  set (f1 := ((1 + r) ^ n1)%Q) in *. set (f2 := ((1 + r) ^ n2)%Q) in *.
  assert (Hu : (0 <= b2 * r <= b1 * r)%Q) by nra.
  set (u1 := (b1 * r)%Q) in *. set (u2 := (b2 * r)%Q) in *.
  assert (Hg : (0 <= f2 * (f1 - 1) <= f1 * (f2 - 1))%Q) by nra.
  assert (H : (u2 * f2 * (f1 - 1) <= u1 * f1 * (f2 - 1))%Q).
  { assert (E2 : (u2 * f2 * (f1 - 1) == u2 * (f2 * (f1 - 1)))%Q) by ring.
    assert (E1 : (u1 * f1 * (f2 - 1) == u1 * (f1 * (f2 - 1)))%Q) by ring.
    rewrite E1, E2.
    set (g1 := (f1 * (f2 - 1))%Q) in *. set (g2 := (f2 * (f1 - 1))%Q) in *.
    nra. }
  apply Qle_shift_div_r; [lra|].
  assert (E : (u1 * f1 / (f1 - 1) * (f2 - 1)
               == u1 * f1 * (f2 - 1) / (f1 - 1))%Q) by (field; lra).
  rewrite E.
  apply Qle_shift_div_l; [lra|exact H].
Qed.


